(** * Uniswap v3 arbitrage signal tracker: numeric core

    A shallow embedding of [src/univ3_arb_tracker.py]: the fixed-point and
    tick price converters, the TWAP calculator, the deviation signals and
    the sampling loop that appends one record per sample.

    Python integers are [Z].  A [decimal.Decimal] is modelled by its numeric
    value, a signed coefficient and a power-of-ten exponent, together with the
    arithmetic context the script installs ([getcontext().prec = 40], the
    default rounding ROUND_HALF_EVEN, Emax = 999999, Emin = -999999, and the
    default traps InvalidOperation, DivisionByZero and Overflow, which turn
    the corresponding signals into Python exceptions).  Addition,
    subtraction, multiplication and division return the exact result rounded
    once to the context, as the General Decimal Arithmetic rules require; an
    integer power is taken as the exact power rounded once, which is what the
    decimal module's Python implementation returns.  Exceptions are an error
    monad. *)

From Stdlib Require Import ZArith QArith Qabs Qpower Qfield List String Bool Lia Lra Psatz Morphisms.
Import ListNotations.
Open Scope Z_scope.

(** ** Exceptions *)

Inductive exn : Type :=
  | ZeroDivisionError      (* int // 0 *)
  | DivisionByZero         (* decimal.DivisionByZero, x / 0 with x nonzero *)
  | InvalidOperation       (* decimal.InvalidOperation, e.g. 0 / 0 *)
  | Overflow               (* decimal.Overflow, adjusted exponent above Emax *)
  | IndexError             (* list index out of range *)
  | RemoteError.           (* a failed JSON-RPC call *)

Inductive result (A : Type) : Type :=
  | Ok (a : A)
  | Raise (e : exn).
Arguments Ok {A} a.
Arguments Raise {A} e.

Definition bind {A B : Type} (r : result A) (k : A -> result B) : result B :=
  match r with
  | Ok a => k a
  | Raise e => Raise e
  end.

Notation "x <- c ;; k" := (bind c (fun x => k))
  (at level 61, c at next level, right associativity).

(** The exceptions that are subclasses of Python's [ArithmeticError]. *)
Definition is_arithmetic_error (e : exn) : bool :=
  match e with
  | ZeroDivisionError | DivisionByZero | InvalidOperation | Overflow => true
  | IndexError | RemoteError => false
  end.

(** ** The decimal context and values *)

Definition prec : Z := 40.
Definition Emax : Z := 999999.
Definition Emin : Z := -999999.
Definition Etiny : Z := Emin - prec + 1.
Definition Etop : Z := Emax - prec + 1.

(** [Fin m e] is the number [m * 10^e]; the sign of a zero is not tracked.
    [Inf] is the only special value the trapped context can still produce
    (zero raised to a negative power). *)
Inductive Decimal : Type :=
  | Fin (m e : Z)
  | Inf (neg : bool).

(** The rational value of a finite decimal. *)
Definition qval (m e : Z) : Q :=
  if 0 <=? e then inject_Z (m * 10 ^ e)
  else Qmake m (Z.to_pos (10 ^ (- e))).

(** Number of decimal digits of the coefficient ([len(self._int)]). *)
Fixpoint ndigits_fuel (fuel : nat) (n : Z) : Z :=
  match fuel with
  | O => 1
  | S f => if n <? 10 then 1 else 1 + ndigits_fuel f (n / 10)
  end.

Definition ndigits (n : Z) : Z :=
  ndigits_fuel (Z.to_nat (Z.log2 (Z.abs n))) (Z.abs n).

(** Drop the [k] low digits of the non-negative coefficient [c], rounding
    half to even. *)
Definition round_half_even (c k : Z) : Z :=
  let p := 10 ^ k in
  let q := c / p in
  let r := c mod p in
  if 2 * r <? p then q
  else if p <? 2 * r then q + 1
  else if Z.even q then q else q + 1.

(** [Decimal._fix]: round to the context precision and check the exponent
    range. *)
Definition fix_ (m e : Z) : result Decimal :=
  if m =? 0 then Ok (Fin 0 (Z.min (Z.max e Etiny) Emax))
  else
    let exp_min0 := ndigits m + e - prec in
    if Etop <? exp_min0 then Raise Overflow
    else
      let exp_min := Z.max exp_min0 Etiny in
      if e <? exp_min then
        let c := round_half_even (Z.abs m) (exp_min - e) in
        let c' := if prec <? ndigits c then c / 10 else c in
        let exp_min' := if prec <? ndigits c then exp_min + 1 else exp_min in
        if Etop <? exp_min' then Raise Overflow
        else Ok (Fin (Z.sgn m * c') exp_min')
      else Ok (Fin m e).

(** [Decimal(n)] for a Python int: exact, whatever the context. *)
Definition of_int (n : Z) : Decimal := Fin n 0.

Definition dneg (a : Decimal) : Decimal :=
  match a with
  | Fin m e => Fin (- m) e
  | Inf s => Inf (negb s)
  end.

Definition dadd (a b : Decimal) : result Decimal :=
  match a, b with
  | Fin m1 e1, Fin m2 e2 =>
      let e := Z.min e1 e2 in
      fix_ (m1 * 10 ^ (e1 - e) + m2 * 10 ^ (e2 - e)) e
  | Inf s1, Inf s2 => if Bool.eqb s1 s2 then Ok (Inf s1) else Raise InvalidOperation
  | Inf s, Fin _ _ | Fin _ _, Inf s => Ok (Inf s)
  end.

Definition dsub (a b : Decimal) : result Decimal := dadd a (dneg b).

Definition dmul (a b : Decimal) : result Decimal :=
  match a, b with
  | Fin m1 e1, Fin m2 e2 => fix_ (m1 * m2) (e1 + e2)
  | Inf s1, Inf s2 => Ok (Inf (xorb s1 s2))
  | Inf s, Fin m _ | Fin m _, Inf s =>
      if m =? 0 then Raise InvalidOperation else Ok (Inf (xorb s (m <? 0)))
  end.

(** The loop of [__truediv__] that brings an exact quotient as close to the
    ideal exponent as its trailing zeros allow. *)
Fixpoint strip_to_ideal (fuel : nat) (coeff exp ideal : Z) : Z * Z :=
  match fuel with
  | O => (coeff, exp)
  | S f =>
      if (exp <? ideal) && (coeff mod 10 =? 0)
      then strip_to_ideal f (coeff / 10) (exp + 1) ideal
      else (coeff, exp)
  end.

(** The quotient of two nonzero finite decimals, as [__truediv__] computes
    it: [prec + 1] or [prec + 2] digits of quotient, a sticky last digit when
    the division is inexact, then [_fix]. *)
Definition div_nonzero (m1 e1 m2 e2 : Z) : result Decimal :=
  let sign := Z.sgn m1 * Z.sgn m2 in
  let shift := ndigits m2 - ndigits m1 + prec + 1 in
  let exp := e1 - e2 - shift in
  let num := if 0 <=? shift then Z.abs m1 * 10 ^ shift else Z.abs m1 in
  let den := if 0 <=? shift then Z.abs m2 else Z.abs m2 * 10 ^ (- shift) in
  let coeff := num / den in
  let remainder := num mod den in
  if remainder =? 0 then
    let '(c, x) := strip_to_ideal (Z.to_nat (e1 - e2 - exp)) coeff exp (e1 - e2) in
    fix_ (sign * c) x
  else
    fix_ (sign * (if coeff mod 5 =? 0 then coeff + 1 else coeff)) exp.

Definition ddiv (a b : Decimal) : result Decimal :=
  match a, b with
  | Fin m1 e1, Fin m2 e2 =>
      if m2 =? 0 then
        if m1 =? 0 then Raise InvalidOperation else Raise DivisionByZero
      else if m1 =? 0 then fix_ 0 (e1 - e2)
      else div_nonzero m1 e1 m2 e2
  | Inf _, Inf _ => Raise InvalidOperation
  | Inf s, Fin m _ => Ok (Inf (xorb s (m <? 0)))
  | Fin _ _, Inf _ => Ok (Fin 0 Etiny)
  end.

(** [x ** n] for an integer exponent [n] (every exponent in the script is a
    Python int or [Decimal(int)]): the exact power, rounded once. *)
Definition dpow (a : Decimal) (n : Z) : result Decimal :=
  match a with
  | Fin m e =>
      if n =? 0 then
        if m =? 0 then Raise InvalidOperation else Ok (Fin 1 0)
      else if m =? 0 then
        if 0 <? n then Ok (Fin 0 0) else Ok (Inf false)
      else if 0 <? n then fix_ (m ^ n) (e * n)
      else div_nonzero (if Z.even n then 1 else Z.sgn m) 0 (Z.abs m ^ (- n)) (e * (- n))
  | Inf s =>
      if n =? 0 then Ok (Fin 1 0)
      else if 0 <? n then Ok (Inf (s && Z.odd n))
      else Ok (Fin 0 0)
  end.

(** ** The converters *)

Definition q_96 : result Decimal := dpow (of_int 2) 96.

Definition reciprocal_if (invert : bool) (p1_per_p0 : Decimal) : result Decimal :=
  if invert then ddiv (of_int 1) p1_per_p0 else Ok p1_per_p0.

Definition price_from_sqrt_price_x96
    (sqrt_price_x96 decimals_0 decimals_1 : Z) (invert : bool) : result Decimal :=
  sq <- dpow (of_int sqrt_price_x96) 2 ;;
  q <- q_96 ;;
  q2 <- dpow q 2 ;;
  ratio <- ddiv sq q2 ;;
  scale <- dpow (of_int 10) (decimals_0 - decimals_1) ;;
  p1_per_p0 <- dmul ratio scale ;;
  reciprocal_if invert p1_per_p0.

Definition tick_to_price
    (tick decimals_0 decimals_1 : Z) (invert : bool) : result Decimal :=
  base <- dpow (Fin 10001 (-4)) tick ;;
  scale <- dpow (of_int 10) (decimals_0 - decimals_1) ;;
  p1_per_p0 <- dmul base scale ;;
  reciprocal_if invert p1_per_p0.

(** ** The pool state reader and the TWAP calculator *)

(** Raw reads of one pool at one sampling instant: [slot0()] gives the
    square-root price and the current tick, [observe(offsets)] the cumulative
    ticks and cumulative seconds-per-liquidity at the given offsets. *)
Record PoolState : Type := {
  slot0 : result (Z * Z);
  liquidity : result Z;
  observe : list Z -> result (list Z * list Z)
}.

Definition index {A : Type} (l : list A) (i : nat) : result A :=
  match nth_error l i with
  | Some a => Ok a
  | None => Raise IndexError
  end.

(** Python's [//] on ints: floor division, ZeroDivisionError on 0. *)
Definition floordiv (a b : Z) : result Z :=
  if b =? 0 then Raise ZeroDivisionError else Ok (a / b).

Definition compute_twap (pool : PoolState) (window_seconds : Z) : result Z :=
  obs <- observe pool [window_seconds; 0] ;;
  tick_start <- index (fst obs) 0 ;;
  tick_end <- index (fst obs) 1 ;;
  floordiv (tick_end - tick_start) window_seconds.

(** ** The signal calculator (the three deviation lines of [run]) *)

Definition cross_deviation (price_a price_b : Decimal) : result Decimal :=
  diff <- dsub price_a price_b ;;
  total <- dadd price_a price_b ;;
  avg <- ddiv total (of_int 2) ;;
  q <- ddiv diff avg ;;
  dmul q (of_int 100).

Definition twap_deviation (price twap_price : Decimal) : result Decimal :=
  diff <- dsub price twap_price ;;
  q <- ddiv diff twap_price ;;
  dmul q (of_int 100).

Record Signals : Type := {
  cross_pool_deviation : Decimal;
  twap_deviation_a : Decimal;
  twap_deviation_b : Decimal
}.

Definition signals (price_a price_b twap_price_a twap_price_b : Decimal)
  : result Signals :=
  c <- cross_deviation price_a price_b ;;
  da <- twap_deviation price_a twap_price_a ;;
  db <- twap_deviation price_b twap_price_b ;;
  Ok {| cross_pool_deviation := c; twap_deviation_a := da; twap_deviation_b := db |}.

(** ** Records and the sampling loop *)

Record Token : Type := {
  token_address : string;
  symbol : string;
  decimals : Z
}.

(** The pool descriptor resolved once by [get_pool_view]. *)
Record View : Type := {
  pool_address : string;
  token0 : Token;
  token1 : Token;
  fee : Z;
  tick_spacing : Z
}.

(** A cell of a record: the dict values of the row literal, with the
    conversions [str], [float], [int] and [/] kept symbolic. *)
Inductive cell : Type :=
  | CStr (s : string)
  | CInt (n : Z)
  | CDecStr (d : Decimal)       (* str(d) *)
  | CFloat (d : Decimal)        (* float(d) *)
  | CTrueDiv (n d : Z).         (* n / d on ints *)

(** A Python dict literal, in insertion order. *)
Definition Row : Type := list (string * cell).

Open Scope string_scope.

Definition make_row (time_stamp : string) (view_a view_b : View)
    (price_a price_b twap_price_a twap_price_b : Decimal) (s : Signals)
    (liquidity_a liquidity_b tick_a tick_b : Z) : Row :=
  [ ("timestamp", CStr time_stamp);
    ("poolA_address", CStr (pool_address view_a));
    ("poolB_address", CStr (pool_address view_b));
    ("symbol_pair", CStr (symbol (token0 view_a) ++ "/" ++ symbol (token1 view_a)));
    ("fee_a", CTrueDiv (fee view_a) 100);
    ("fee_b", CTrueDiv (fee view_b) 100);
    ("priceA_token1_per_token0", CDecStr price_a);
    ("priceB_token1_per_token0", CDecStr price_b);
    ("twapA_tick", CDecStr twap_price_a);
    ("twapB_tick", CDecStr twap_price_b);
    ("twap_deviation_a", CFloat (twap_deviation_a s));
    ("twap_deviation_b", CFloat (twap_deviation_b s));
    ("cross_pool_deviation", CFloat (cross_pool_deviation s));
    ("liquidityA", CInt liquidity_a);
    ("liquidityB", CInt liquidity_b);
    ("tickA", CInt tick_a);
    ("tickB", CInt tick_b) ].

Close Scope string_scope.

(** The reads and prices of one pool within one iteration. *)
Definition read_pool (view : View) (pool : PoolState)
  : result (Z * Z * Decimal * Decimal) :=
  s0 <- slot0 pool ;;
  liq <- liquidity pool ;;
  price <- price_from_sqrt_price_x96 (fst s0)
             (decimals (token0 view)) (decimals (token1 view)) false ;;
  twap <- compute_twap pool 300 ;;
  twap_price <- tick_to_price twap
                  (decimals (token0 view)) (decimals (token1 view)) false ;;
  Ok (snd s0, liq, price, twap_price).

(** What the outside world supplies to one iteration: the clock read by the
    loop test, the timestamp, and the two pools' readers. *)
Record World : Type := {
  now : Z;
  time_stamp : string;
  state_a : PoolState;
  state_b : PoolState
}.

(** The record one iteration builds, or the exception that escapes it. *)
Definition sample_row (view_a view_b : View) (w : World) : result Row :=
  a <- read_pool view_a (state_a w) ;;
  b <- read_pool view_b (state_b w) ;;
  let '(tick_a, liquidity_a, price_a, twap_price_a) := a in
  let '(tick_b, liquidity_b, price_b, twap_price_b) := b in
  s <- signals price_a price_b twap_price_a twap_price_b ;;
  Ok (make_row (time_stamp w) view_a view_b
        price_a price_b twap_price_a twap_price_b s
        liquidity_a liquidity_b tick_a tick_b).

(** The body of the [while] loop as a transition on the [rows] list: the
    append is the last statement, after every computation that can raise. *)
Definition sample (view_a view_b : View) (w : World) (rows : list Row)
  : list Row * result unit :=
  match sample_row view_a view_b w with
  | Ok r => (rows ++ [r], Ok tt)
  | Raise e => (rows, Raise e)
  end.

Inductive outcome : Type :=
  | Done (rows : list Row)                 (* deadline reached: rows go to export *)
  | Failed (e : exn) (rows : list Row)     (* an exception ended the run *)
  | Running (rows : list Row).             (* still sampling when the fuel ran out *)

(** The sampling loop; [env i] is the world met by iteration [i]. *)
Fixpoint sampling_loop (fuel : nat) (env : nat -> World) (i : nat)
    (end_time : Z) (view_a view_b : View) (rows : list Row) : outcome :=
  match fuel with
  | O => Running rows
  | S f =>
      if now (env i) <? end_time then
        match sample view_a view_b (env i) rows with
        | (rows', Ok _) => sampling_loop f env (S i) end_time view_a view_b rows'
        | (rows', Raise e) => Failed e rows'
        end
      else Done rows
  end.

(** [pd.DataFrame(rows)]: the columns are the keys in order of first
    appearance; [to_csv] writes each record's cells in that column order. *)
Definition add_key (cols : list string) (k : string) : list string :=
  if existsb (String.eqb k) cols then cols else cols ++ [k].

Definition dataframe_columns (rows : list Row) : list string :=
  fold_left (fun cols r => fold_left add_key (map fst r) cols) rows [].

Fixpoint lookup (k : string) (r : Row) : option cell :=
  match r with
  | [] => None
  | (k', v) :: r' => if String.eqb k k' then Some v else lookup k r'
  end.

Definition to_csv (rows : list Row) : list string * list (list (option cell)) :=
  let cols := dataframe_columns rows in
  (cols, map (fun r => map (fun c => lookup c r) cols) rows).

Open Scope string_scope.
Definition COLUMNS : list string :=
  [ "timestamp"; "poolA_address"; "poolB_address"; "symbol_pair"; "fee_a";
    "fee_b"; "priceA_token1_per_token0"; "priceB_token1_per_token0";
    "twapA_tick"; "twapB_tick"; "twap_deviation_a"; "twap_deviation_b";
    "cross_pool_deviation"; "liquidityA"; "liquidityB"; "tickA"; "tickB" ].
Close Scope string_scope.

(** ** Quantities used to state the numeric properties *)

(** Outcomes of the arithmetic on finite operands: a finite decimal, or one
    of the trapped signals. *)
Definition finite_or_arith (r : result Decimal) : Prop :=
  (exists m e, r = Ok (Fin m e)) \/
  (exists x, r = Raise x /\ is_arithmetic_error x = true).

(** Position of the leading digit: [10^(mag - 1) <= |m * 10^e| < 10^mag]. *)
Definition mag (m e : Z) : Z := ndigits m + e.

(** Powers of ten as rationals; [qval m e] is [m * q10 e]. *)
Definition q10 (e : Z) : Q := Qpower 10 e.

(** [r] is within relative error [eps] of [v]. *)
Definition close (eps v r : Q) : Prop := (Qabs (r - v) <= eps * Qabs v)%Q.

(** Half a unit, and one unit, in the 40th significant digit. *)
Definition half_ulp : Q := 1 # 2000000000000000000000000000000000000000.
Definition ulp : Q := 1 # 1000000000000000000000000000000000000000.



(** [q_96() ** 2], that is 2^192 rounded to 40 digits. *)
Definition q_96_squared : Decimal := Fin 6277101735386680763835789423207666416102 18.

(** The exact sum of two finite decimals, on the smaller exponent. *)
Definition aligned_sum (m1 e1 m2 e2 : Z) : Z :=
  m1 * 10 ^ (e1 - Z.min e1 e2) + m2 * 10 ^ (e2 - Z.min e1 e2).

(** The signal formulas over exact rationals. *)
Definition cross_exact (pa pb : Q) : Q := ((pa - pb) / ((pa + pb) / 2) * 100)%Q.
Definition twap_deviation_exact (p t : Q) : Q := ((p - t) / t * 100)%Q.

(** A decimal such as the converters return: positive, at most 40 digits,
    between 10^-1001 and 10^1000. *)
Definition price_like (m e : Z) : Prop :=
  0 < m /\ ndigits m <= prec /\ -1000 <= mag m e <= 1000.

(** Error of (d / t) * 100 from the errors of d and t. *)
Definition percent_eps (eD eT : Q) : Q :=
  let e1 := (eD + eT / (1 - eT) + eD * (eT / (1 - eT)))%Q in
  let e2 := (e1 + ulp + e1 * ulp)%Q in
  (e2 + half_ulp + e2 * half_ulp)%Q.

Definition signal_eps : Q := 4 # 1000000000000000000000000000000000000000.


(** The values the tick converter is specified to return: 1.0001^t, and
    1.0001^t * 10^(d0 - d1), as exact rationals. *)
Definition tick_exact (t : Z) : Q := Qpower (10001 # 10000) t.




(** [x] is an integer nearest to sqrt(1.0001^t) * 2^96, the square-root
    price encoding of tick [t]: |x - s| <= 1/2, written on the squares. *)
Definition is_sqrt_price_of_tick (t x : Z) : Prop :=
  0 < x /\
  (inject_Z ((2 * x - 1) ^ 2) <= 4 * inject_Z (2 ^ 192) * tick_exact t)%Q /\
  (4 * inject_Z (2 ^ 192) * tick_exact t <= inject_Z ((2 * x + 1) ^ 2))%Q.


(** ** Sample data for the worked cases *)

(** A pool whose reads succeed with fixed values. *)
Definition fixed_pool (sqrt_price_x96 tick liq : Z) (cumulative : list Z) : PoolState :=
  {| slot0 := Ok (sqrt_price_x96, tick);
     liquidity := Ok liq;
     observe := fun _ => Ok (cumulative, []) |}.

Open Scope string_scope.
Definition usdc : Token := {| token_address := "0xA0b8"; symbol := "USDC"; decimals := 6 |}.
Definition weth : Token := {| token_address := "0xC02a"; symbol := "WETH"; decimals := 18 |}.
Definition view_005 : View :=
  {| pool_address := "0x88e6"; token0 := usdc; token1 := weth; fee := 500; tick_spacing := 10 |}.
Definition view_03 : View :=
  {| pool_address := "0x8ad5"; token0 := usdc; token1 := weth; fee := 3000; tick_spacing := 60 |}.

(** One sample is taken at time 0 and the deadline 10 has passed at the
    second loop test. *)
Definition two_tests (i : nat) : World :=
  {| now := match i with O => 0 | _ => 10 end;
     time_stamp := "2025-01-01T00:00:00+00:00";
     state_a := fixed_pool (2 ^ 96) 0 1000 [0; 300];
     state_b := fixed_pool (2 ^ 97) 13863 2000 [0; 600] |}.
Close Scope string_scope.

(** [run] starts the loop with an empty [rows] list. *)
Definition run_loop (fuel : nat) (env : nat -> World) (end_time : Z)
    (view_a view_b : View) : outcome :=
  sampling_loop fuel env 0 end_time view_a view_b [].

(** The denominator of the cross-pool deviation, as the signal line
    computes it. *)
Definition spot_average (price_a price_b : Decimal) : result Decimal :=
  total <- dadd price_a price_b ;;
  ddiv total (of_int 2).

(** An uninitialised pair of pools: both square-root prices are 0. *)
Definition uninitialised : World :=
  {| now := 0;
     time_stamp := EmptyString;
     state_a := fixed_pool 0 0 0 [0; 300];
     state_b := fixed_pool 0 0 0 [0; 600] |}.

(** ** Quantities used to state the further properties *)




(** The negation of a result: [-d] for a decimal, the same exception
    otherwise. *)
Definition negated (r : result Decimal) : result Decimal :=
  match r with
  | Ok d => Ok (dneg d)
  | Raise e => Raise e
  end.

(** What one iteration reads of one pool and computes from it: the tick and
    the liquidity as read, the spot price of the square-root price read, and
    the price of the 300 s TWAP tick. *)
Definition pool_sample (view : View) (pool : PoolState)
    (tick liq : Z) (price twap_price : Decimal) : Prop :=
  exists x twap,
    slot0 pool = Ok (x, tick) /\
    liquidity pool = Ok liq /\
    price_from_sqrt_price_x96 x
      (decimals (token0 view)) (decimals (token1 view)) false = Ok price /\
    compute_twap pool 300 = Ok twap /\
    tick_to_price twap
      (decimals (token0 view)) (decimals (token1 view)) false = Ok twap_price.

(** The records collected so far, whatever the outcome. *)
Definition rows_of (o : outcome) : list Row :=
  match o with
  | Done rows | Failed _ rows | Running rows => rows
  end.

(** * Properties *)

(** ** The error monad *)

Lemma bind_ok {A B : Type} (r : result A) (k : A -> result B) (b : B) :
  bind r k = Ok b -> exists a, r = Ok a /\ k a = Ok b.
Proof.
  destruct r as [a | e]; simpl; intros H; [ exists a; split; trivial | discriminate ].
Qed.

Lemma bind_raise {A B : Type} (r : result A) (k : A -> result B) (e : exn) :
  bind r k = Raise e -> r = Raise e \/ exists a, r = Ok a /\ k a = Raise e.
Proof.
  destruct r as [a | e']; simpl; intros H.
  - right. exists a. split; [ reflexivity | exact H ].
  - left. now inversion H.
Qed.

(** ** Digit counts *)

Lemma ndigits_fuel_bounds (fuel : nat) :
  forall n, 0 < n -> n < 2 ^ Z.of_nat (S fuel) ->
    1 <= ndigits_fuel fuel n /\
    10 ^ (ndigits_fuel fuel n - 1) <= n < 10 ^ ndigits_fuel fuel n.
Proof.
  induction fuel as [| f IH]; intros n Hpos Hlt.
  - change (2 ^ Z.of_nat 1) with 2 in Hlt. simpl. lia.
  - cbn [ndigits_fuel]. destruct (Z.ltb_spec n 10) as [Hs | Hb].
    + simpl. lia.
    + assert (Hq : 0 < n / 10) by (apply Z.div_str_pos; lia).
      assert (Hq2 : n / 10 < 2 ^ Z.of_nat (S f)).
      { apply Z.div_lt_upper_bound; [ lia | ].
        replace (Z.of_nat (S (S f))) with (Z.succ (Z.of_nat (S f))) in Hlt by lia.
        rewrite Z.pow_succ_r in Hlt by lia. lia. }
      destruct (IH (n / 10) Hq Hq2) as [H1 [H2 H3]].
      set (d := ndigits_fuel f (n / 10)) in *.
      split; [ lia | ].
      replace (1 + d - 1) with (Z.succ (d - 1)) by lia.
      replace (1 + d) with (Z.succ d) by lia.
      rewrite !Z.pow_succ_r by lia.
      pose proof (Z.mul_div_le n 10 ltac:(lia)).
      pose proof (Z.mod_pos_bound n 10 ltac:(lia)).
      pose proof (Z.div_mod n 10 ltac:(lia)).
      lia.
Qed.

Lemma ndigits_bounds (n : Z) :
  n <> 0 ->
  1 <= ndigits n /\ 10 ^ (ndigits n - 1) <= Z.abs n < 10 ^ ndigits n.
Proof.
  intros Hn. unfold ndigits.
  apply ndigits_fuel_bounds; [ lia | ].
  replace (Z.of_nat (S (Z.to_nat (Z.log2 (Z.abs n)))))
    with (Z.succ (Z.log2 (Z.abs n))).
  - apply Z.log2_spec. lia.
  - pose proof (Z.log2_nonneg (Z.abs n)). lia.
Qed.

Lemma ndigits_unique (n d : Z) :
  10 ^ (d - 1) <= Z.abs n < 10 ^ d -> 1 <= d -> ndigits n = d.
Proof.
  intros [Hlo Hhi] Hd.
  assert (Hn : n <> 0).
  { intros ->. simpl in Hlo. pose proof (Z.pow_pos_nonneg 10 (d - 1)). lia. }
  destruct (ndigits_bounds n Hn) as [H1 [H2 H3]].
  destruct (Z.lt_trichotomy (ndigits n) d) as [Hlt | [Heq | Hgt]]; trivial.
  - assert (10 ^ ndigits n <= 10 ^ (d - 1)) by (apply Z.pow_le_mono_r; lia). lia.
  - assert (10 ^ d <= 10 ^ (ndigits n - 1)) by (apply Z.pow_le_mono_r; lia). lia.
Qed.

Lemma ndigits_abs (n : Z) : ndigits (Z.abs n) = ndigits n.
Proof. unfold ndigits. now rewrite Z.abs_idemp. Qed.

Lemma ndigits_pos (n : Z) : 1 <= ndigits n.
Proof.
  destruct (Z.eq_dec n 0) as [-> | Hn]; [ reflexivity | ].
  apply ndigits_bounds; trivial.
Qed.

(** ** What [_fix] can return *)

Lemma fix_finite (m e : Z) (d : Decimal) :
  fix_ m e = Ok d -> exists m' e', d = Fin m' e'.
Proof.
  unfold fix_.
  repeat match goal with
         | |- context [if ?b then _ else _] => destruct b
         end; intros H; inversion H; eauto.
Qed.

Lemma fix_raises_overflow (m e : Z) (x : exn) :
  fix_ m e = Raise x -> x = Overflow.
Proof.
  unfold fix_.
  repeat match goal with
         | |- context [if ?b then _ else _] => destruct b
         end; intros H; inversion H; trivial.
Qed.

Lemma fix_zero (e : Z) : exists e', fix_ 0 e = Ok (Fin 0 e').
Proof. unfold fix_. simpl. eauto. Qed.

Lemma div_nonzero_cases (m1 e1 m2 e2 : Z) :
  (exists m e, div_nonzero m1 e1 m2 e2 = Ok (Fin m e)) \/
  div_nonzero m1 e1 m2 e2 = Raise Overflow.
Proof.
  unfold div_nonzero.
  match goal with
  | |- context [strip_to_ideal ?f ?c ?x ?i] => destruct (strip_to_ideal f c x i) as [c0 x0]
  end.
  match goal with
  | |- context [if ?b then fix_ ?a1 ?a2 else fix_ ?b1 ?b2] =>
      destruct b;
      [ destruct (fix_ a1 a2) as [d | x] eqn:E | destruct (fix_ b1 b2) as [d | x] eqn:E ]
  end;
  try (apply fix_finite in E; destruct E as (m' & e' & ->); left; eauto);
  try (apply fix_raises_overflow in E; subst; right; reflexivity).
Qed.

Lemma fix_outcome (m e : Z) : finite_or_arith (fix_ m e).
Proof.
  destruct (fix_ m e) as [d | x] eqn:E.
  - apply fix_finite in E. destruct E as (m' & e' & ->). left; eauto.
  - apply fix_raises_overflow in E; subst. right; eauto.
Qed.

Lemma dadd_outcome (m1 e1 m2 e2 : Z) : finite_or_arith (dadd (Fin m1 e1) (Fin m2 e2)).
Proof. apply fix_outcome. Qed.

Lemma dsub_outcome (m1 e1 m2 e2 : Z) : finite_or_arith (dsub (Fin m1 e1) (Fin m2 e2)).
Proof. apply fix_outcome. Qed.

Lemma dmul_outcome (m1 e1 m2 e2 : Z) : finite_or_arith (dmul (Fin m1 e1) (Fin m2 e2)).
Proof. apply fix_outcome. Qed.

Lemma ddiv_outcome (m1 e1 m2 e2 : Z) : finite_or_arith (ddiv (Fin m1 e1) (Fin m2 e2)).
Proof.
  unfold ddiv.
  destruct (m2 =? 0); [ destruct (m1 =? 0); right; eauto | ].
  destruct (m1 =? 0); [ apply fix_outcome | ].
  destruct (div_nonzero_cases m1 e1 m2 e2) as [(m & e & ->) | ->]; [ left | right ]; eauto.
Qed.

Lemma ddiv_by_zero (m1 e1 e2 : Z) :
  exists x, ddiv (Fin m1 e1) (Fin 0 e2) = Raise x /\
            (x = DivisionByZero \/ x = InvalidOperation).
Proof. unfold ddiv. simpl. destruct (m1 =? 0); eauto. Qed.

(** ** The TWAP calculator *)

Example twap_exact_division :
  compute_twap (fixed_pool 0 0 0 [1000; 4000]) 300 = Ok 10.
Proof. reflexivity. Qed.

Example twap_floor_11 :
  compute_twap (fixed_pool 0 0 0 [1000; 4450]) 300 = Ok 11.
Proof. reflexivity. Qed.

Example twap_negative_difference :
  compute_twap (fixed_pool 0 0 0 [4450; 1000]) 300 = Ok (-12).
Proof. reflexivity. Qed.

(** C2: for a positive window the TWAP calculator returns the floor of
    (c_end - c_start) / window: the unique integer q with
    q * window <= c_end - c_start < (q + 1) * window, which rounds toward
    negative infinity when the difference is negative. *)
Theorem compute_twap_floor (pool : PoolState) (window c_start c_end : Z)
    (more seconds : list Z) :
  0 < window ->
  observe pool [window; 0] = Ok (c_start :: c_end :: more, seconds) ->
  exists q, compute_twap pool window = Ok q /\
            q * window <= c_end - c_start < (q + 1) * window.
Proof.
  intros Hw Hobs. unfold compute_twap. rewrite Hobs. simpl.
  unfold floordiv. destruct (Z.eqb_spec window 0) as [-> | _]; [ lia | ].
  exists ((c_end - c_start) / window). split; [ reflexivity | ].
  pose proof (Z.div_mod (c_end - c_start) window ltac:(lia)).
  pose proof (Z.mod_pos_bound (c_end - c_start) window Hw).
  nia.
Qed.

Lemma compute_twap_floor_witness :
  exists q, compute_twap (fixed_pool 0 0 0 [1000; 4450]) 300 = Ok q /\
            q * 300 <= 4450 - 1000 < (q + 1) * 300.
Proof.
  apply (compute_twap_floor (fixed_pool 0 0 0 [1000; 4450]) 300 1000 4450 [] []).
  - lia.
  - reflexivity.
Defined.

(** C10: with a zero window the floor division of the cumulative-tick
    difference raises ZeroDivisionError, whatever the two observations are. *)
Theorem compute_twap_zero_window (pool : PoolState) (c_start c_end : Z)
    (more seconds : list Z) :
  observe pool [0; 0] = Ok (c_start :: c_end :: more, seconds) ->
  compute_twap pool 0 = Raise ZeroDivisionError.
Proof.
  intros Hobs. unfold compute_twap. rewrite Hobs. reflexivity.
Qed.

Lemma compute_twap_zero_window_witness :
  compute_twap (fixed_pool 0 0 0 [1000; 4000]) 0 = Raise ZeroDivisionError.
Proof.
  apply (compute_twap_zero_window (fixed_pool 0 0 0 [1000; 4000]) 1000 4000 [] []).
  reflexivity.
Defined.

(** ** The signal calculator on degenerate prices *)

Ltac split_outcome H :=
  let m := fresh "m" in let e := fresh "e" in
  let x := fresh "x" in let Hx := fresh "Hx" in
  destruct H as [(m & e & H) | (x & H & Hx)]; rewrite H; cbn [bind];
  [ | eexists; split; [ reflexivity | exact Hx ] ].

Lemma twap_deviation_zero_twap (m e e0 : Z) :
  exists x, twap_deviation (Fin m e) (Fin 0 e0) = Raise x /\
            is_arithmetic_error x = true.
Proof.
  unfold twap_deviation.
  pose proof (dsub_outcome m e 0 e0) as H. split_outcome H.
  destruct (ddiv_by_zero m0 e1 e0) as (x & -> & [-> | ->]); cbn [bind]; eauto.
Qed.

Lemma twap_deviation_outcome (m e mt et : Z) :
  finite_or_arith (twap_deviation (Fin m e) (Fin mt et)).
Proof.
  unfold twap_deviation, finite_or_arith.
  destruct (dsub_outcome m e mt et) as [(m1 & e1 & ->) | (x & -> & Hx)];
    cbn [bind]; [ | right; eauto ].
  destruct (ddiv_outcome m1 e1 mt et) as [(m2 & e2 & ->) | (x & -> & Hx)];
    cbn [bind]; [ | right; eauto ].
  apply dmul_outcome.
Qed.

Lemma cross_deviation_outcome (ma ea mb eb : Z) :
  finite_or_arith (cross_deviation (Fin ma ea) (Fin mb eb)).
Proof.
  unfold cross_deviation, finite_or_arith.
  destruct (dsub_outcome ma ea mb eb) as [(m1 & e1 & ->) | (x & -> & Hx)];
    cbn [bind]; [ | right; eauto ].
  destruct (dadd_outcome ma ea mb eb) as [(m2 & e2 & ->) | (x & -> & Hx)];
    cbn [bind]; [ | right; eauto ].
  destruct (ddiv_outcome m2 e2 2 0) as [(m3 & e3 & H) | (x & H & Hx)];
    unfold of_int; rewrite H; cbn [bind]; [ | right; eauto ].
  destruct (ddiv_outcome m1 e1 m3 e3) as [(m4 & e4 & ->) | (x & -> & Hx)];
    cbn [bind]; [ | right; eauto ].
  apply dmul_outcome.
Qed.

Lemma cross_deviation_zero_average (ma ea mb eb e0 : Z) :
  spot_average (Fin ma ea) (Fin mb eb) = Ok (Fin 0 e0) ->
  exists x, cross_deviation (Fin ma ea) (Fin mb eb) = Raise x /\
            is_arithmetic_error x = true.
Proof.
  unfold spot_average, cross_deviation. intros Havg.
  apply bind_ok in Havg. destruct Havg as (total & Htot & Hdiv).
  pose proof (dsub_outcome ma ea mb eb) as H. split_outcome H.
  rewrite Htot. cbn [bind]. rewrite Hdiv. cbn [bind].
  destruct (ddiv_by_zero m e e0) as (x & -> & [-> | ->]); cbn [bind]; eauto.
Qed.

Lemma signals_zero_denominator (ma ea mb eb mta eta mtb etb : Z) :
  mta = 0 \/ mtb = 0 \/
    (exists e0, spot_average (Fin ma ea) (Fin mb eb) = Ok (Fin 0 e0)) ->
  exists x, signals (Fin ma ea) (Fin mb eb) (Fin mta eta) (Fin mtb etb) = Raise x /\
            is_arithmetic_error x = true.
Proof.
  intros Hz. unfold signals.
  destruct Hz as [-> | [-> | (e0 & Havg)]].
  - pose proof (cross_deviation_outcome ma ea mb eb) as H. split_outcome H.
    destruct (twap_deviation_zero_twap ma ea eta) as (x & -> & Hx). cbn [bind]. eauto.
  - pose proof (cross_deviation_outcome ma ea mb eb) as H. split_outcome H.
    pose proof (twap_deviation_outcome ma ea mta eta) as H2. split_outcome H2.
    destruct (twap_deviation_zero_twap mb eb etb) as (x & -> & Hx). cbn [bind]. eauto.
  - destruct (cross_deviation_zero_average _ _ _ _ _ Havg) as (x & -> & Hx).
    cbn [bind]. eauto.
Qed.

(** C4: when a TWAP price is zero, or the average of the two spot prices is
    zero, the signal computation raises an arithmetic error (a decimal
    DivisionByZero, InvalidOperation or Overflow, never a value), and the
    iteration leaves the record list as it was. *)
Theorem zero_denominator_fails_without_record
    (view_a view_b : View) (w : World) (rows : list Row)
    (tick_a liq_a tick_b liq_b ma ea mb eb mta eta mtb etb : Z) :
  read_pool view_a (state_a w) = Ok (tick_a, liq_a, Fin ma ea, Fin mta eta) ->
  read_pool view_b (state_b w) = Ok (tick_b, liq_b, Fin mb eb, Fin mtb etb) ->
  mta = 0 \/ mtb = 0 \/
    (exists e0, spot_average (Fin ma ea) (Fin mb eb) = Ok (Fin 0 e0)) ->
  exists x,
    signals (Fin ma ea) (Fin mb eb) (Fin mta eta) (Fin mtb etb) = Raise x /\
    is_arithmetic_error x = true /\
    sample view_a view_b w rows = (rows, Raise x).
Proof.
  intros Ha Hb Hz.
  destruct (signals_zero_denominator ma ea mb eb mta eta mtb etb Hz) as (x & Hs & Hx).
  exists x. repeat split; trivial.
  unfold sample, sample_row. rewrite Ha, Hb. cbn [bind]. rewrite Hs. reflexivity.
Qed.

Lemma zero_denominator_fails_without_record_witness :
  exists x,
    signals (Fin 0 (-30)) (Fin 0 (-30)) (Fin 10001 (-16)) (Fin 100020001 (-20)) = Raise x /\
    is_arithmetic_error x = true /\
    sample view_005 view_03 uninitialised [] = ([], Raise x).
Proof.
  apply (zero_denominator_fails_without_record view_005 view_03 uninitialised []
           0 0 0 0 0 (-30) 0 (-30) 10001 (-16) 100020001 (-20)).
  - vm_compute. reflexivity.
  - vm_compute. reflexivity.
  - right. right. exists (-30). vm_compute. reflexivity.
Defined.

(** ** The exported table *)

Lemma sample_row_columns (view_a view_b : View) (w : World) (r : Row) :
  sample_row view_a view_b w = Ok r -> map fst r = COLUMNS.
Proof.
  unfold sample_row. intros H.
  apply bind_ok in H. destruct H as ([[[tick_a liq_a] price_a] twap_a] & _ & H).
  apply bind_ok in H. destruct H as ([[[tick_b liq_b] price_b] twap_b] & _ & H).
  apply bind_ok in H. destruct H as (s & _ & H).
  inversion H. reflexivity.
Qed.

Lemma sampling_loop_columns (fuel : nat) (env : nat -> World) (end_time : Z)
    (view_a view_b : View) :
  forall (i : nat) (rows0 rows : list Row),
    Forall (fun r => map fst r = COLUMNS) rows0 ->
    sampling_loop fuel env i end_time view_a view_b rows0 = Done rows ->
    Forall (fun r => map fst r = COLUMNS) rows.
Proof.
  induction fuel as [| f IH]; intros i rows0 rows Hinv Hrun; simpl in Hrun.
  - discriminate.
  - destruct (now (env i) <? end_time).
    + unfold sample in Hrun.
      destruct (sample_row view_a view_b (env i)) as [r | x] eqn:Hrow.
      * apply (IH (S i) (rows0 ++ [r]) rows); trivial.
        apply Forall_app. split; trivial.
        constructor; [ | constructor ].
        apply (sample_row_columns _ _ _ _ Hrow).
      * discriminate.
    + inversion Hrun; subst. exact Hinv.
Qed.

Lemma add_keys_known (r : Row) :
  map fst r = COLUMNS -> fold_left add_key (map fst r) COLUMNS = COLUMNS.
Proof. intros ->. reflexivity. Qed.

Lemma dataframe_columns_stable (rows : list Row) :
  Forall (fun r => map fst r = COLUMNS) rows ->
  fold_left (fun cols r => fold_left add_key (map fst r) cols) rows COLUMNS = COLUMNS.
Proof.
  induction 1 as [| r rows Hr _ IH]; simpl; [ reflexivity | ].
  rewrite (add_keys_known r Hr). exact IH.
Qed.

Lemma dataframe_columns_fixed (rows : list Row) :
  Forall (fun r => map fst r = COLUMNS) rows -> rows <> [] ->
  dataframe_columns rows = COLUMNS.
Proof.
  intros Hall Hne. destruct rows as [| r rows]; [ congruence | ].
  inversion Hall as [| r' rows' Hr Hrest]; subst.
  unfold dataframe_columns. simpl. rewrite Hr.
  change (fold_left add_key COLUMNS []) with COLUMNS.
  apply dataframe_columns_stable; trivial.
Qed.

Lemma lookup_in_order (r : Row) :
  map fst r = COLUMNS ->
  map (fun c => lookup c r) COLUMNS = map (fun kv => Some (snd kv)) r.
Proof.
  intros H.
  do 17 (destruct r as [| [? ?] r]; [ discriminate H | ]).
  destruct r; [ | discriminate H ].
  unfold COLUMNS in *. simpl in H.
  injection H as -> -> -> -> -> -> -> -> -> -> -> -> -> -> -> -> ->.
  reflexivity.
Qed.

(** C9: when the loop ends at its deadline, every record handed to the
    export has the 17 columns in the fixed order, the table's header is that
    column list, and each exported line carries the record's values in that
    order. *)
Theorem export_column_order (fuel : nat) (env : nat -> World) (end_time : Z)
    (view_a view_b : View) (rows : list Row) :
  run_loop fuel env end_time view_a view_b = Done rows ->
  Forall (fun r => map fst r = COLUMNS) rows /\
  (rows <> [] -> fst (to_csv rows) = COLUMNS) /\
  snd (to_csv rows) = map (fun r => map (fun kv => Some (snd kv)) r) rows.
Proof.
  intros Hrun.
  assert (Hall : Forall (fun r => map fst r = COLUMNS) rows).
  { apply (sampling_loop_columns fuel env end_time view_a view_b 0 [] rows); trivial. }
  split; [ exact Hall | ]. split.
  - intros Hne. simpl. apply dataframe_columns_fixed; trivial.
  - destruct rows as [| r0 rows']; [ reflexivity | ].
    unfold to_csv. cbn [snd].
    rewrite (dataframe_columns_fixed (r0 :: rows') Hall ltac:(discriminate)).
    apply map_ext_in. intros r Hin.
    apply lookup_in_order.
    rewrite Forall_forall in Hall. apply Hall; trivial.
Qed.

Lemma export_column_order_witness :
  exists rows,
    run_loop 5 two_tests 10 view_005 view_03 = Done rows /\
    fst (to_csv rows) = COLUMNS.
Proof.
  assert (H : exists rows,
             run_loop 5 two_tests 10 view_005 view_03 = Done rows /\ rows <> []).
  { eexists. split; [ vm_compute; reflexivity | discriminate ]. }
  destruct H as (rows & Hrun & Hne).
  exists rows. split; [ exact Hrun | ].
  apply (export_column_order 5 two_tests 10 view_005 view_03 rows Hrun). exact Hne.
Defined.

(** ** Rounding to the context precision *)

Lemma round_half_even_bounds (c k : Z) :
  0 <= c -> 0 <= k ->
  c / 10 ^ k <= round_half_even c k <= c / 10 ^ k + 1 /\
  2 * Z.abs (round_half_even c k * 10 ^ k - c) <= 10 ^ k.
Proof.
  intros Hc Hk. unfold round_half_even.
  assert (Hp : 0 < 10 ^ k) by (apply Z.pow_pos_nonneg; lia).
  pose proof (Z.div_mod c (10 ^ k) ltac:(lia)) as Hdm.
  pose proof (Z.mod_pos_bound c (10 ^ k) Hp) as Hr.
  set (p := 10 ^ k) in *. set (q := c / p) in *. set (r := c mod p) in *.
  destruct (Z.ltb_spec (2 * r) p); [ split; nia | ].
  destruct (Z.ltb_spec p (2 * r)); [ split; nia | ].
  destruct (Z.even q); split; nia.
Qed.

Lemma abs_sgn_mul_sub (m x : Z) :
  m <> 0 -> Z.abs (Z.sgn m * x - m) = Z.abs (x - Z.abs m).
Proof. destruct m; simpl; intros; try contradiction; destruct x; lia. Qed.

Lemma ndigits_sgn_mul (m c : Z) : m <> 0 -> ndigits (Z.sgn m * c) = ndigits c.
Proof.
  intros Hm. unfold ndigits.
  replace (Z.abs (Z.sgn m * c)) with (Z.abs c); [ reflexivity | ].
  destruct m; simpl; try contradiction; destruct c; reflexivity.
Qed.

Lemma sgn_sgn_mul (m c : Z) : m <> 0 -> 0 < c -> Z.sgn (Z.sgn m * c) = Z.sgn m.
Proof. destruct m; simpl; intros; try contradiction; destruct c; simpl; lia. Qed.

Lemma fix_in_range (m e : Z) :
  m <> 0 ->
  Etiny + prec <= mag m e <= Etop + prec - 1 ->
  exists m' e',
    fix_ m e = Ok (Fin m' e') /\
    Z.sgn m' = Z.sgn m /\
    ndigits m' <= prec /\
    e <= e' /\
    mag m e <= mag m' e' <= mag m e + 1 /\
    2 * 10 ^ 39 * Z.abs (m' * 10 ^ (e' - e) - m) <= Z.abs m.
Proof.
  intros Hm [Hlo Hhi]. unfold mag in *. unfold fix_.
  destruct (Z.eqb_spec m 0) as [| _]; [ contradiction | ].
  destruct (ndigits_bounds m Hm) as (HL1 & HLlo & HLhi).
  set (L := ndigits m) in *.
  destruct (Z.ltb_spec Etop (L + e - prec)) as [Hov | _]; [ lia | ].
  rewrite (Z.max_l (L + e - prec) Etiny) by lia.
  destruct (Z.ltb_spec e (L + e - prec)) as [Hround | Hkeep].
  - (* digits are dropped *)
    replace (L + e - prec - e) with (L - prec) by lia.
    set (k := L - prec).
    assert (Hk : 0 < k) by (unfold k; lia).
    assert (HkL : L = 40 + k) by (unfold k, prec; lia).
    destruct (round_half_even_bounds (Z.abs m) k ltac:(lia) ltac:(lia)) as ([Hq1 Hq2] & Herr).
    set (c := round_half_even (Z.abs m) k) in *.
    assert (Hp : 0 < 10 ^ k) by (apply Z.pow_pos_nonneg; lia).
    assert (Hsplit : 10 ^ L = 10 ^ 40 * 10 ^ k).
    { rewrite HkL. rewrite Z.pow_add_r by lia. reflexivity. }
    assert (Hsplit' : 10 ^ (L - 1) = 10 ^ 39 * 10 ^ k).
    { replace (L - 1) with (39 + k) by lia.
      rewrite Z.pow_add_r by lia. reflexivity. }
    assert (Hqlo : 10 ^ 39 <= Z.abs m / 10 ^ k).
    { apply Z.div_le_lower_bound; lia. }
    assert (Hqhi : Z.abs m / 10 ^ k < 10 ^ 40).
    { apply Z.div_lt_upper_bound; lia. }
    assert (Hc : 10 ^ 39 <= c <= 10 ^ 40) by lia.
    assert (Herr' : 2 * 10 ^ 39 * Z.abs (c * 10 ^ k - Z.abs m) <= Z.abs m) by nia.
    destruct (Z.eq_dec c (10 ^ 40)) as [Hc40 | Hc40].
    + (* the carry adds a digit *)
      assert (Hnd : ndigits c = 41) by (rewrite Hc40; reflexivity).
      rewrite Hnd. change (prec <? 41) with true. cbn iota.
      destruct (Z.ltb_spec Etop (L + e - prec + 1)) as [Hov | _]; [ lia | ].
      exists (Z.sgn m * (c / 10)), (L + e - prec + 1).
      assert (Hc10 : c / 10 = 10 ^ 39) by (rewrite Hc40; reflexivity).
      rewrite (ndigits_sgn_mul m _ Hm), Hc10.
      change (ndigits (10 ^ 39)) with 40.
      split; [ reflexivity | ].
      split; [ apply sgn_sgn_mul; [ trivial | reflexivity ] | ].
      split; [ unfold prec; lia | ].
      split; [ lia | ].
      split; [ unfold prec in *; lia | ].
      replace (L + e - prec + 1 - e) with (k + 1) by (unfold k; lia).
      rewrite Z.pow_add_r by lia.
      replace (Z.sgn m * 10 ^ 39 * (10 ^ k * 10 ^ 1)) with (Z.sgn m * (c * 10 ^ k)).
      * rewrite (abs_sgn_mul_sub m _ Hm). exact Herr'.
      * rewrite Hc40. change (10 ^ 40) with (10 ^ 39 * 10 ^ 1). ring.
    + assert (Hnd : ndigits c = 40).
      { apply ndigits_unique; [ | lia ]. rewrite Z.abs_eq by lia. simpl (40 - 1). lia. }
      rewrite Hnd. change (prec <? 40) with false. cbn iota.
      destruct (Z.ltb_spec Etop (L + e - prec)) as [Hov | _]; [ lia | ].
      exists (Z.sgn m * c), (L + e - prec).
      rewrite (ndigits_sgn_mul m _ Hm), Hnd.
      split; [ reflexivity | ].
      split; [ apply sgn_sgn_mul; [ trivial | lia ] | ].
      split; [ unfold prec; lia | ].
      split; [ lia | ].
      split; [ unfold prec in *; lia | ].
      replace (L + e - prec - e) with k by (unfold k; lia).
      replace (Z.sgn m * c * 10 ^ k) with (Z.sgn m * (c * 10 ^ k)) by ring.
      rewrite (abs_sgn_mul_sub m _ Hm). exact Herr'.
  - exists m, e. fold L.
    split; [ reflexivity | ].
    split; [ reflexivity | ].
    split; [ lia | ].
    split; [ lia | ].
    split; [ lia | ].
    rewrite Z.sub_diag. simpl (10 ^ 0). rewrite Z.mul_1_r, Z.sub_diag. simpl. lia.
Qed.

Lemma ndigits_lower (n d : Z) : 0 <= d -> 10 ^ d <= Z.abs n -> d + 1 <= ndigits n.
Proof.
  intros Hd Hle.
  assert (Hn : n <> 0).
  { intros ->. simpl in Hle. pose proof (Z.pow_pos_nonneg 10 d). lia. }
  destruct (ndigits_bounds n Hn) as (H1 & _ & Hhi).
  destruct (Z.le_gt_cases (d + 1) (ndigits n)) as [| Hlt]; trivial.
  assert (10 ^ ndigits n <= 10 ^ d) by (apply Z.pow_le_mono_r; lia). lia.
Qed.

Lemma ndigits_upper (n d : Z) : n <> 0 -> Z.abs n < 10 ^ d -> ndigits n <= d.
Proof.
  intros Hn Hlt.
  destruct (ndigits_bounds n Hn) as (H1 & Hlo & _).
  destruct (Z.le_gt_cases (ndigits n) d) as [| Hgt]; trivial.
  destruct (Z.le_gt_cases 0 d) as [Hd | Hd].
  - assert (10 ^ d <= 10 ^ (ndigits n - 1)) by (apply Z.pow_le_mono_r; lia). lia.
  - rewrite Z.pow_neg_r in Hlt by lia. lia.
Qed.

Lemma ndigits_mul (m1 m2 : Z) :
  m1 <> 0 -> m2 <> 0 ->
  ndigits m1 + ndigits m2 - 1 <= ndigits (m1 * m2) <= ndigits m1 + ndigits m2.
Proof.
  intros H1 H2.
  destruct (ndigits_bounds m1 H1) as (Ha & Hlo1 & Hhi1).
  destruct (ndigits_bounds m2 H2) as (Hb & Hlo2 & Hhi2).
  set (L1 := ndigits m1) in *. set (L2 := ndigits m2) in *.
  assert (Hp1 : 0 < 10 ^ (L1 - 1)) by (apply Z.pow_pos_nonneg; lia).
  assert (Hp2 : 0 < 10 ^ (L2 - 1)) by (apply Z.pow_pos_nonneg; lia).
  split.
  - replace (L1 + L2 - 1) with ((L1 - 1 + (L2 - 1)) + 1) by lia.
    apply ndigits_lower; [ lia | ].
    rewrite Z.pow_add_r, Z.abs_mul by lia. nia.
  - apply ndigits_upper; [ nia | ].
    rewrite Z.pow_add_r, Z.abs_mul by lia. nia.
Qed.

Lemma ndigits_mul_pow10 (c j : Z) :
  c <> 0 -> 0 <= j -> ndigits (c * 10 ^ j) = ndigits c + j.
Proof.
  intros Hc Hj.
  destruct (ndigits_bounds c Hc) as (Ha & Hlo & Hhi).
  assert (Hp : 0 < 10 ^ j) by (apply Z.pow_pos_nonneg; lia).
  apply ndigits_unique; [ | lia ].
  rewrite Z.abs_mul, (Z.abs_eq (10 ^ j)) by lia.
  replace (ndigits c + j - 1) with (ndigits c - 1 + j) by lia.
  rewrite !Z.pow_add_r by lia. nia.
Qed.

Lemma strip_to_ideal_spec (fuel : nat) :
  forall coeff exp ideal c x,
    strip_to_ideal fuel coeff exp ideal = (c, x) ->
    exp <= x /\ coeff = c * 10 ^ (x - exp).
Proof.
  induction fuel as [| f IH]; intros coeff exp ideal c x H; simpl in H.
  - inversion H; subst. rewrite Z.sub_diag. simpl. lia.
  - destruct ((exp <? ideal) && (coeff mod 10 =? 0))%bool eqn:Hb.
    + apply andb_prop in Hb. destruct Hb as [_ Hmod].
      apply Z.eqb_eq in Hmod.
      destruct (IH _ _ _ _ _ H) as [Hx Hc].
      split; [ lia | ].
      replace (x - exp) with (x - (exp + 1) + 1) by lia.
      rewrite Z.pow_add_r by lia. rewrite Z.mul_assoc, <- Hc.
      pose proof (Z.div_mod coeff 10 ltac:(lia)). simpl (10 ^ 1). lia.
    + inversion H; subst. rewrite Z.sub_diag. simpl. lia.
Qed.

(** ** Values and relative error *)

Lemma q10_pos (e : Z) : (0 < q10 e)%Q.
Proof. apply Qpower_0_lt. reflexivity. Qed.

Lemma q10_add (a b : Z) : (q10 (a + b) == q10 a * q10 b)%Q.
Proof. apply Qpower_plus. discriminate. Qed.

Lemma q10_nonneg_exp (e : Z) : 0 <= e -> (q10 e == inject_Z (10 ^ e))%Q.
Proof. intros He. unfold q10. rewrite Zpower_Qpower by trivial. reflexivity. Qed.

Lemma qval_q10 (m e : Z) : (qval m e == inject_Z m * q10 e)%Q.
Proof.
  unfold qval. destruct (Z.leb_spec 0 e) as [He | He].
  - rewrite inject_Z_mult, q10_nonneg_exp by trivial. reflexivity.
  - assert (Hp : 0 < 10 ^ (- e)) by (apply Z.pow_pos_nonneg; lia).
    rewrite Qmake_Qdiv. rewrite Z2Pos.id by trivial.
    rewrite <- q10_nonneg_exp by lia.
    unfold q10. rewrite Qpower_opp.
    assert (Hnz : ~ (10 ^ e == 0)%Q) by (apply Qpower_not_0; discriminate).
    field. exact Hnz.
Qed.

Lemma Qabs_inject_Z (z : Z) : (Qabs (inject_Z z) == inject_Z (Z.abs z))%Q.
Proof. destruct z; reflexivity. Qed.

Lemma close_mul (e1 e2 v1 v2 r1 r2 : Q) :
  close e1 v1 r1 -> close e2 v2 r2 ->
  close (e1 + e2 + e1 * e2) (v1 * v2) (r1 * r2).
Proof.
  unfold close. intros H1 H2.
  assert (E : (r1 * r2 - v1 * v2 == (r1 - v1) * (r2 - v2) + (r1 - v1) * v2 + v1 * (r2 - v2))%Q) by ring.
  rewrite E.
  eapply Qle_trans; [ apply Qabs_triangle | ].
  eapply Qle_trans; [ apply Qplus_le_compat; [ apply Qabs_triangle | apply Qle_refl ] | ].
  rewrite !Qabs_Qmult.
  pose proof (Qabs_nonneg (r1 - v1)). pose proof (Qabs_nonneg (r2 - v2)).
  pose proof (Qabs_nonneg v1). pose proof (Qabs_nonneg v2).
  set (a := Qabs (r1 - v1)) in *. set (b := Qabs (r2 - v2)) in *.
  set (x := Qabs v1) in *. set (y := Qabs v2) in *.
  nra.
Qed.

Lemma close_weaken (e1 e2 v r : Q) :
  close e1 v r -> (e1 <= e2)%Q -> close e2 v r.
Proof.
  unfold close. intros H Hle. pose proof (Qabs_nonneg v).
  set (x := Qabs v) in *. set (a := Qabs (r - v)) in *. nra.
Qed.

Lemma close_refl (eps v r : Q) : (0 <= eps)%Q -> (r == v)%Q -> close eps v r.
Proof.
  unfold close. intros He Hrv.
  assert (E : (r - v == 0)%Q) by (rewrite Hrv; ring).
  rewrite E. simpl (Qabs 0). pose proof (Qabs_nonneg v). nra.
Qed.

Lemma close_trans (e1 e2 v r s : Q) :
  (0 <= e2)%Q ->
  close e1 v r -> close e2 r s -> close (e1 + e2 + e1 * e2) v s.
Proof.
  unfold close. intros He2 H1 H2.
  assert (E : (s - v == (s - r) + (r - v))%Q) by ring.
  rewrite E. eapply Qle_trans; [ apply Qabs_triangle | ].
  assert (Hr : (Qabs r <= Qabs v + Qabs (r - v))%Q).
  { assert (E2 : (r == v + (r - v))%Q) by ring.
    rewrite E2 at 1. apply Qabs_triangle. }
  pose proof (Qabs_nonneg v). pose proof (Qabs_nonneg (r - v)).
  set (x := Qabs v) in *. set (a := Qabs (r - v)) in *.
  set (y := Qabs r) in *. set (b := Qabs (s - r)) in *.
  nra.
Qed.

Lemma fix_close (m e : Z) :
  m <> 0 ->
  Etiny + prec <= mag m e <= Etop + prec - 1 ->
  exists m' e',
    fix_ m e = Ok (Fin m' e') /\
    Z.sgn m' = Z.sgn m /\
    ndigits m' <= prec /\
    mag m e <= mag m' e' <= mag m e + 1 /\
    close half_ulp (qval m e) (qval m' e').
Proof.
  intros Hm Hr.
  destruct (fix_in_range m e Hm Hr) as (m' & e' & Hfix & Hs & Hd & He & Hmag & Herr).
  exists m', e'. repeat (split; trivial).
  unfold close. rewrite !qval_q10.
  replace e' with ((e' - e) + e) at 1 by ring.
  rewrite q10_add, (q10_nonneg_exp (e' - e)) by lia.
  set (P := 10 ^ (e' - e)) in *.
  assert (E : (inject_Z m' * (inject_Z P * q10 e) - inject_Z m * q10 e
               == inject_Z (m' * P - m) * q10 e)%Q).
  { unfold Zminus. rewrite inject_Z_plus, inject_Z_mult, inject_Z_opp. ring. }
  rewrite E, !Qabs_Qmult, !Qabs_inject_Z.
  rewrite (Qabs_pos (q10 e)) by (apply Qlt_le_weak, q10_pos).
  pose proof (q10_pos e) as Hq.
  assert (Hz : (inject_Z (2 * 10 ^ 39) * inject_Z (Z.abs (m' * P - m)) <= inject_Z (Z.abs m))%Q).
  { rewrite <- inject_Z_mult. rewrite <- Zle_Qle. lia. }
  assert (Hd0 : (0 <= inject_Z (Z.abs (m' * P - m)))%Q).
  { change 0%Q with (inject_Z 0). rewrite <- Zle_Qle. lia. }
  change (inject_Z (2 * 10 ^ 39)) with (2000000000000000000000000000000000000000 # 1)%Q in Hz.
  unfold half_ulp.
  set (d := inject_Z (Z.abs (m' * P - m))) in *. set (M := inject_Z (Z.abs m)) in *.
  set (q := q10 e) in *.
  nra.
Qed.

Lemma qval_mul (m1 e1 m2 e2 : Z) :
  (qval (m1 * m2) (e1 + e2) == qval m1 e1 * qval m2 e2)%Q.
Proof. rewrite !qval_q10, q10_add, inject_Z_mult. ring. Qed.

Lemma dmul_close (m1 e1 m2 e2 : Z) :
  m1 <> 0 -> m2 <> 0 ->
  Etiny + prec + 1 <= mag m1 e1 + mag m2 e2 <= Etop + prec - 1 ->
  exists m e,
    dmul (Fin m1 e1) (Fin m2 e2) = Ok (Fin m e) /\
    Z.sgn m = Z.sgn m1 * Z.sgn m2 /\
    ndigits m <= prec /\
    mag m1 e1 + mag m2 e2 - 1 <= mag m e <= mag m1 e1 + mag m2 e2 + 1 /\
    close half_ulp (qval m1 e1 * qval m2 e2) (qval m e).
Proof.
  intros H1 H2 Hr. unfold dmul.
  pose proof (ndigits_mul m1 m2 H1 H2) as Hd.
  assert (Hm : m1 * m2 <> 0) by nia.
  destruct (fix_close (m1 * m2) (e1 + e2) Hm) as (m & e & Hfix & Hs & Hn & Hmag & Hc).
  { unfold mag in *. lia. }
  exists m, e. split; [ exact Hfix | ].
  split; [ rewrite Hs; apply Z.sgn_mul | ].
  split; [ exact Hn | ].
  split; [ unfold mag in *; lia | ].
  unfold close in *. rewrite <- qval_mul. exact Hc.
Qed.

Lemma close_scale (eps s v r : Q) :
  close eps v r -> close eps (s * v) (s * r).
Proof.
  unfold close. intros H.
  assert (E : (s * r - s * v == s * (r - v))%Q) by ring.
  rewrite E, !Qabs_Qmult.
  pose proof (Qabs_nonneg s). set (a := Qabs s) in *.
  set (x := Qabs (r - v)) in *. set (y := Qabs v) in *. nra.
Qed.

Lemma qval_sgn (m e : Z) :
  (qval m e == inject_Z (Z.sgn m) * qval (Z.abs m) e)%Q.
Proof.
  rewrite !qval_q10. rewrite Qmult_assoc, <- inject_Z_mult.
  rewrite Z.mul_comm, Z.abs_sgn. reflexivity.
Qed.

Lemma qval_pos (m e : Z) : 0 < m -> (0 < qval m e)%Q.
Proof.
  intros Hm. rewrite qval_q10.
  apply Qmult_lt_0_compat; [ | apply q10_pos ].
  change 0%Q with (inject_Z 0). rewrite <- Zlt_Qlt. exact Hm.
Qed.

Lemma qval_nonzero (m e : Z) : m <> 0 -> ~ (qval m e == 0)%Q.
Proof.
  intros Hm. rewrite qval_q10. intros H.
  apply Qmult_integral in H. destruct H as [H | H].
  - apply Hm. unfold Qeq in H. simpl in H. lia.
  - pose proof (q10_pos e) as Hp. rewrite H in Hp. discriminate.
Qed.

(** The scaled operands of a division. *)
Lemma div_operands (a b shift : Z) :
  0 < a -> 0 < b ->
  shift = ndigits b - ndigits a + 41 ->
  let num := if 0 <=? shift then a * 10 ^ shift else a in
  let den := if 0 <=? shift then b else b * 10 ^ (- shift) in
  0 < den /\ 10 ^ 40 * den <= num < 10 ^ 42 * den /\
  (inject_Z num == inject_Z den * (inject_Z a / inject_Z b * q10 shift))%Q.
Proof.
  intros Ha Hb Hs.
  destruct (ndigits_bounds a ltac:(lia)) as (HLa & Hloa & Hhia).
  destruct (ndigits_bounds b ltac:(lia)) as (HLb & Hlob & Hhib).
  rewrite Z.abs_eq in Hloa, Hhia, Hlob, Hhib by lia.
  set (La := ndigits a) in *. set (Lb := ndigits b) in *.
  assert (Hbq : ~ (inject_Z b == 0)%Q).
  { unfold Qeq. simpl. lia. }
  destruct (Z.leb_spec 0 shift) as [Hsh | Hsh]; cbv zeta.
  - assert (Hp : 0 < 10 ^ shift) by (apply Z.pow_pos_nonneg; lia).
    assert (E1 : 10 ^ (La - 1) * 10 ^ shift = 10 ^ 40 * 10 ^ Lb).
    { rewrite <- !Z.pow_add_r by lia. f_equal. lia. }
    assert (E2 : 10 ^ La * 10 ^ shift = 10 ^ 42 * 10 ^ (Lb - 1)).
    { rewrite <- !Z.pow_add_r by lia. f_equal. lia. }
    split; [ lia | ]. split; [ split; nia | ].
    rewrite inject_Z_mult, <- q10_nonneg_exp by lia. field. exact Hbq.
  - assert (Hp : 0 < 10 ^ (- shift)) by (apply Z.pow_pos_nonneg; lia).
    assert (E1 : 10 ^ 40 * (10 ^ Lb * 10 ^ (- shift)) = 10 ^ (La - 1)).
    { rewrite <- !Z.pow_add_r by lia. f_equal. lia. }
    assert (E2 : 10 ^ 42 * (10 ^ (Lb - 1) * 10 ^ (- shift)) = 10 ^ La).
    { rewrite <- !Z.pow_add_r by lia. f_equal. lia. }
    split; [ nia | ]. split; [ split; nia | ].
    rewrite inject_Z_mult, <- q10_nonneg_exp by lia.
    assert (E3 : (q10 shift * q10 (- shift) == 1)%Q).
    { rewrite <- q10_add. replace (shift + - shift) with 0 by lia. reflexivity. }
    transitivity (inject_Z a * (q10 shift * q10 (- shift)))%Q; [ rewrite E3; ring | ].
    field. exact Hbq.
Qed.

(** An integer within one of a quotient that is at least [10^40]. *)
Lemma close_quotient (num den c : Z) (q v : Q) :
  0 < den -> 10 ^ 40 * den <= num ->
  Z.abs (c * den - num) <= den ->
  (0 < q)%Q ->
  (inject_Z num * q == inject_Z den * v)%Q ->
  close (1 # 10000000000000000000000000000000000000000) v (inject_Z c * q).
Proof.
  intros Hden Hnum Hc Hq Hv.
  assert (Hdq : (0 < inject_Z den)%Q).
  { change 0%Q with (inject_Z 0). rewrite <- Zlt_Qlt. exact Hden. }
  assert (Ev : (v == inject_Z num * q / inject_Z den)%Q).
  { rewrite Hv. field. intros H. rewrite H in Hdq. discriminate. }
  unfold close. rewrite Ev.
  assert (E : (inject_Z c * q - inject_Z num * q / inject_Z den
               == inject_Z (c * den - num) * (q / inject_Z den))%Q).
  { unfold Zminus. rewrite inject_Z_plus, inject_Z_mult, inject_Z_opp. field.
    intros H. rewrite H in Hdq. discriminate. }
  rewrite E.
  assert (E' : (inject_Z num * q / inject_Z den == inject_Z num * (q / inject_Z den))%Q).
  { field; try (intros H; rewrite H in Hdq; discriminate). }
  rewrite E', !Qabs_Qmult, !Qabs_inject_Z.
  assert (Hqd : (0 < q / inject_Z den)%Q).
  { apply Qlt_shift_div_l; [ exact Hdq | rewrite Qmult_0_l; exact Hq ]. }
  rewrite (Qabs_pos (q / inject_Z den)) by (apply Qlt_le_weak; exact Hqd).
  assert (Hz : (inject_Z (10 ^ 40) * inject_Z (Z.abs (c * den - num)) <= inject_Z (Z.abs num))%Q).
  { rewrite <- inject_Z_mult, <- Zle_Qle. nia. }
  change (inject_Z (10 ^ 40)) with (10000000000000000000000000000000000000000 # 1)%Q in Hz.
  set (d := inject_Z (Z.abs (c * den - num))) in *.
  set (N := inject_Z (Z.abs num)) in *.
  set (w := (q / inject_Z den)%Q) in *.
  nra.
Qed.

Lemma sgn_product_cases (m1 m2 : Z) :
  m1 <> 0 -> m2 <> 0 ->
  Z.sgn m1 * Z.sgn m2 = 1 \/ Z.sgn m1 * Z.sgn m2 = -1.
Proof. destruct m1, m2; simpl; intros; try contradiction; auto. Qed.

Lemma ndigits_unit_mul (s c : Z) : s = 1 \/ s = -1 -> ndigits (s * c) = ndigits c.
Proof.
  intros [-> | ->]; unfold ndigits.
  - now rewrite Z.mul_1_l.
  - replace (Z.abs (-1 * c)) with (Z.abs c) by lia. reflexivity.
Qed.

Lemma sgn_unit_mul (s c : Z) : s = 1 \/ s = -1 -> 0 < c -> Z.sgn (s * c) = s.
Proof. intros [-> | ->] Hc; destruct c; simpl; lia. Qed.

Lemma qval_unit_mul (s c e : Z) : (qval (s * c) e == inject_Z s * qval c e)%Q.
Proof. rewrite !qval_q10, inject_Z_mult. ring. Qed.

(** The exact quotient in terms of the absolute coefficients. *)
Lemma quotient_value (m1 e1 m2 e2 shift : Z) :
  m1 <> 0 -> m2 <> 0 ->
  (qval m1 e1 / qval m2 e2 ==
   inject_Z (Z.sgn m1 * Z.sgn m2) *
   (inject_Z (Z.abs m1) / inject_Z (Z.abs m2) * q10 shift * q10 (e1 - e2 - shift)))%Q.
Proof.
  intros H1 H2.
  rewrite (qval_sgn m1), (qval_sgn m2), !qval_q10, inject_Z_mult.
  assert (Hq : (q10 e1 == q10 e2 * q10 shift * q10 (e1 - e2 - shift))%Q).
  { rewrite <- !q10_add. replace (e2 + shift + (e1 - e2 - shift)) with e1 by lia. reflexivity. }
  rewrite Hq.
  assert (Hs : (inject_Z (Z.sgn m2) * inject_Z (Z.sgn m2) == 1)%Q).
  { rewrite <- inject_Z_mult. destruct m2; try contradiction; reflexivity. }
  assert (Hs0 : ~ (inject_Z (Z.sgn m2) == 0)%Q).
  { intros H. rewrite H in Hs. discriminate. }
  assert (Hb : ~ (inject_Z (Z.abs m2) == 0)%Q).
  { unfold Qeq. simpl. lia. }
  assert (Hq2 : ~ (q10 e2 == 0)%Q).
  { intros H. pose proof (q10_pos e2) as Hp. rewrite H in Hp. discriminate. }
  transitivity (inject_Z (Z.sgn m1) * (inject_Z (Z.sgn m2) * inject_Z (Z.sgn m2)) *
                (inject_Z (Z.abs m1) * q10 shift * q10 (e1 - e2 - shift)) /
                (inject_Z (Z.sgn m2) * inject_Z (Z.abs m2)))%Q.
  - rewrite Hs. field. repeat split; trivial.
  - field. repeat split; trivial.
Qed.

Lemma div_close (m1 e1 m2 e2 : Z) :
  m1 <> 0 -> m2 <> 0 ->
  Etiny + prec <= mag m1 e1 - mag m2 e2 <= Etop + prec - 3 ->
  exists m e,
    div_nonzero m1 e1 m2 e2 = Ok (Fin m e) /\
    Z.sgn m = Z.sgn m1 * Z.sgn m2 /\
    ndigits m <= prec /\
    mag m1 e1 - mag m2 e2 <= mag m e <= mag m1 e1 - mag m2 e2 + 3 /\
    close ulp (qval m1 e1 / qval m2 e2) (qval m e).
Proof.
  intros H1 H2 Hr. unfold div_nonzero.
  set (s := Z.sgn m1 * Z.sgn m2).
  assert (Hs : s = 1 \/ s = -1) by (apply sgn_product_cases; trivial).
  set (shift := ndigits m2 - ndigits m1 + prec + 1).
  set (exp := e1 - e2 - shift).
  assert (Hexp : exp + 41 = mag m1 e1 - mag m2 e2) by (unfold exp, shift, mag, prec; lia).
  destruct (div_operands (Z.abs m1) (Z.abs m2) shift ltac:(lia) ltac:(lia))
    as (Hden & [Hnlo Hnhi] & Hval).
  { unfold shift, prec. rewrite !ndigits_abs. lia. }
  set (num := if 0 <=? shift then Z.abs m1 * 10 ^ shift else Z.abs m1) in *.
  set (den := if 0 <=? shift then Z.abs m2 else Z.abs m2 * 10 ^ (- shift)) in *.
  pose proof (Z.div_mod num den ltac:(lia)) as Hdm.
  pose proof (Z.mod_pos_bound num den Hden) as Hrem.
  set (coeff := num / den) in *. set (rem := num mod den) in *.
  assert (Hclo : 10 ^ 40 <= coeff) by (apply Z.div_le_lower_bound; lia).
  assert (Hchi : coeff < 10 ^ 42) by (apply Z.div_lt_upper_bound; lia).
  pose proof (quotient_value m1 e1 m2 e2 shift H1 H2) as HV. fold s exp in HV.
  set (v0 := (inject_Z (Z.abs m1) / inject_Z (Z.abs m2) * q10 shift * q10 exp)%Q) in *.
  assert (Hv0 : (inject_Z num * q10 exp == inject_Z den * v0)%Q).
  { unfold v0. rewrite Hval. ring. }
  (* a coefficient within one of the quotient is rounded to the answer *)
  assert (Hgen : forall c x,
             0 < c -> 41 + exp <= mag c x <= 43 + exp ->
             close (1 # 10000000000000000000000000000000000000000) v0 (qval c x) ->
             exists m e,
               fix_ (s * c) x = Ok (Fin m e) /\
               Z.sgn m = s /\ ndigits m <= prec /\
               mag m1 e1 - mag m2 e2 <= mag m e <= mag m1 e1 - mag m2 e2 + 3 /\
               close ulp (qval m1 e1 / qval m2 e2) (qval m e)).
  { intros c x Hc Hmag Hcl.
    assert (Hsc : s * c <> 0) by (destruct Hs as [-> | ->]; lia).
    assert (Hmag' : mag (s * c) x = mag c x).
    { unfold mag. rewrite ndigits_unit_mul by trivial. reflexivity. }
    destruct (fix_close (s * c) x Hsc) as (m & e & Hfix & Hsg & Hnd & Hmg & Hfc).
    { rewrite Hmag'. unfold prec in *. lia. }
    exists m, e. split; [ exact Hfix | ].
    split; [ rewrite Hsg; apply sgn_unit_mul; trivial | ].
    split; [ exact Hnd | ].
    split; [ rewrite Hmag' in Hmg; lia | ].
    assert (Hcl' : close (1 # 10000000000000000000000000000000000000000)
                     (qval m1 e1 / qval m2 e2) (qval (s * c) x)).
    { unfold close in *. rewrite HV, qval_unit_mul.
      apply (close_scale _ (inject_Z s)) in Hcl. exact Hcl. }
    assert (Hh : (0 <= half_ulp)%Q) by (unfold half_ulp, Qle; simpl; lia).
    pose proof (close_trans _ _ _ _ _ Hh Hcl' Hfc) as Ht.
    apply (close_weaken _ _ _ _ Ht). unfold half_ulp, ulp. vm_compute. discriminate. }
  destruct (Z.eqb_spec rem 0) as [Hexact | Hinexact].
  - (* exact quotient *)
    destruct (strip_to_ideal (Z.to_nat (e1 - e2 - exp)) coeff exp (e1 - e2)) as [c x] eqn:Hstrip.
    destruct (strip_to_ideal_spec _ _ _ _ _ _ Hstrip) as [Hx Hcx].
    assert (Hp : 0 < 10 ^ (x - exp)) by (apply Z.pow_pos_nonneg; lia).
    assert (Hc : 0 < c) by nia.
    assert (Hnd : ndigits coeff = ndigits c + (x - exp)).
    { rewrite Hcx. apply ndigits_mul_pow10; lia. }
    assert (Hnc1 : 41 <= ndigits coeff).
    { apply (ndigits_lower coeff 40); [ lia | rewrite Z.abs_eq by lia; exact Hclo ]. }
    assert (Hnc2 : ndigits coeff <= 42).
    { apply ndigits_upper; [ lia | rewrite Z.abs_eq by lia; exact Hchi ]. }
    apply Hgen; [ exact Hc | unfold mag; lia | ].
    apply close_refl; [ unfold Qle; simpl; lia | ].
    rewrite qval_q10.
    replace x with ((x - exp) + exp) at 1 by lia.
    rewrite q10_add, (q10_nonneg_exp (x - exp)) by lia.
    rewrite Qmult_assoc, <- inject_Z_mult, <- Hcx.
    assert (Hnum : num = den * coeff) by lia.
    rewrite Hnum, inject_Z_mult in Hv0.
    assert (Hdq : ~ (inject_Z den == 0)%Q) by (unfold Qeq; simpl; lia).
    apply (Qmult_inj_l _ _ (inject_Z den)); [ exact Hdq | ].
    rewrite <- Hv0. ring.
  - (* inexact quotient with a sticky digit *)
    set (c := if coeff mod 5 =? 0 then coeff + 1 else coeff).
    assert (Hc : coeff <= c <= coeff + 1) by (unfold c; destruct (coeff mod 5 =? 0); lia).
    assert (Hnc1 : 41 <= ndigits c).
    { apply (ndigits_lower c 40); [ lia | rewrite Z.abs_eq by lia; lia ]. }
    assert (Hnc2 : ndigits c <= 43).
    { apply ndigits_upper; [ lia | rewrite Z.abs_eq by lia ].
      change (10 ^ 43) with (10 * 10 ^ 42). lia. }
    apply Hgen; [ lia | unfold mag; lia | ].
    assert (Hcq : close (1 # 10000000000000000000000000000000000000000) v0
                    (inject_Z c * q10 exp)).
    { apply (close_quotient num den c (q10 exp) v0); trivial.
      - nia.
      - apply q10_pos. }
    unfold close in *. rewrite qval_q10. exact Hcq.
Qed.

(** ** Relative error of quotients of positive values *)

Open Scope Q_scope.

Lemma close_pos_bounds (eps v r : Q) :
  close eps v r -> 0 < v -> (1 - eps) * v <= r <= (1 + eps) * v.
Proof.
  unfold close. intros H Hv.
  rewrite (Qabs_pos v) in H by (apply Qlt_le_weak; exact Hv).
  apply Qabs_diff_Qle_condition in H. destruct H as [H1 H2]. split; lra.
Qed.

Lemma close_of_bounds (eps v r : Q) :
  0 < v -> (1 - eps) * v <= r <= (1 + eps) * v -> close eps v r.
Proof.
  unfold close. intros Hv [H1 H2].
  rewrite (Qabs_pos v) by (apply Qlt_le_weak; exact Hv).
  apply Qabs_diff_Qle_condition. split; lra.
Qed.

Lemma close_pos (eps v r : Q) :
  close eps v r -> 0 < v -> eps < 1 -> 0 < r.
Proof.
  intros H Hv He. destruct (close_pos_bounds _ _ _ H Hv) as [H1 _].
  assert (0 < (1 - eps) * v) by (apply Qmult_lt_0_compat; lra). lra.
Qed.

Lemma close_inv_pos (eps v r : Q) :
  close eps v r -> 0 < v -> eps < 1 ->
  close (eps / (1 - eps)) (/ v) (/ r).
Proof.
  intros H Hv He.
  pose proof (close_pos _ _ _ H Hv He) as Hr.
  destruct (close_pos_bounds _ _ _ H Hv) as [H1 H2].
  assert (He0 : 0 <= eps).
  { unfold close in H. pose proof (Qabs_nonneg (r - v)) as Ha.
    rewrite (Qabs_pos v) in H by lra.
    destruct (Qlt_le_dec eps 0) as [Hneg | ]; trivial.
    exfalso. assert (eps * v < 0) by nra. lra. }
  assert (Hd : 0 < 1 - eps) by lra.
  assert (Hiv : 0 < / v) by (apply Qinv_lt_0_compat; exact Hv).
  assert (Hrv : 0 < r * v) by (apply Qmult_lt_0_compat; trivial).
  apply close_of_bounds; [ exact Hiv | ].
  assert (Ekey : / r - / v == (v - r) / (r * v)) by (field; split; lra).
  assert (Hup : (v - r) / (r * v) <= eps / (1 - eps) * / v).
  { apply Qle_shift_div_r; [ exact Hrv | ].
    assert (E : eps / (1 - eps) * / v * (r * v) == eps * r / (1 - eps)) by (field; split; lra).
    rewrite E. apply Qle_shift_div_l; [ exact Hd | ]. nra. }
  assert (Hlo : - (eps / (1 - eps) * / v) <= (v - r) / (r * v)).
  { apply Qle_shift_div_l; [ exact Hrv | ].
    assert (E : - (eps / (1 - eps) * / v) * (r * v) == - (eps * r) / (1 - eps)) by (field; split; lra).
    rewrite E. apply Qle_shift_div_r; [ exact Hd | ]. nra. }
  split; lra.
Qed.

Lemma close_div_pos (e1 e2 v1 v2 r1 r2 : Q) :
  close e1 v1 r1 -> close e2 v2 r2 -> 0 < v2 -> e2 < 1 ->
  close (e1 + e2 / (1 - e2) + e1 * (e2 / (1 - e2))) (v1 / v2) (r1 / r2).
Proof.
  intros H1 H2 Hv He.
  apply close_mul; [ exact H1 | apply close_inv_pos; trivial ].
Qed.

Close Scope Q_scope.

(** ** The fixed-point price converter *)

Lemma dpow_positive_exponent (m e n : Z) :
  m <> 0 -> 0 < n -> dpow (Fin m e) n = fix_ (m ^ n) (e * n).
Proof.
  intros Hm Hn. unfold dpow.
  destruct (Z.eqb_spec n 0); [ lia | ].
  destruct (Z.eqb_spec m 0); [ contradiction | ].
  destruct (Z.ltb_spec 0 n); [ reflexivity | lia ].
Qed.

Lemma round_half_even_exact (q k : Z) :
  0 <= q -> 0 <= k -> round_half_even (q * 10 ^ k) k = q.
Proof.
  intros Hq Hk. unfold round_half_even.
  assert (Hp : 0 < 10 ^ k) by (apply Z.pow_pos_nonneg; lia).
  rewrite Z.div_mul, Z.mod_mul by lia.
  destruct (Z.ltb_spec (2 * 0) (10 ^ k)); [ reflexivity | lia ].
Qed.

(** A value that fits in the precision is returned unchanged (only its
    trailing zeros may move into the exponent). *)
Lemma fix_representable (c j e : Z) :
  c <> 0 -> 0 <= j -> ndigits c <= prec ->
  Etiny + prec <= mag c (e + j) <= Etop + prec - 1 ->
  exists m' e',
    fix_ (c * 10 ^ j) e = Ok (Fin m' e') /\
    Z.sgn m' = Z.sgn c /\ ndigits m' <= prec /\
    mag m' e' = mag c (e + j) /\
    (qval m' e' == qval c (e + j))%Q.
Proof.
  intros Hc Hj Hnd Hr. unfold mag in *.
  assert (Hp : 0 < 10 ^ j) by (apply Z.pow_pos_nonneg; lia).
  assert (HL : ndigits (c * 10 ^ j) = ndigits c + j) by (apply ndigits_mul_pow10; trivial).
  pose proof (ndigits_pos c) as Hc1.
  unfold fix_. destruct (Z.eqb_spec (c * 10 ^ j) 0) as [H0 | _]; [ nia | ].
  rewrite HL.
  destruct (Z.ltb_spec Etop (ndigits c + j + e - prec)) as [Hov | _]; [ lia | ].
  rewrite (Z.max_l _ Etiny) by lia.
  destruct (Z.ltb_spec e (ndigits c + j + e - prec)) as [Hround | Hkeep].
  - set (k := ndigits c + j + e - prec - e).
    assert (Hk : 0 < k <= j) by (unfold k; lia).
    assert (Habs : Z.abs (c * 10 ^ j) = (Z.abs c * 10 ^ (j - k)) * 10 ^ k).
    { rewrite Z.abs_mul, (Z.abs_eq (10 ^ j)) by lia.
      rewrite <- Z.mul_assoc, <- Z.pow_add_r by lia. do 2 f_equal. lia. }
    rewrite Habs, round_half_even_exact by (try apply Z.mul_nonneg_nonneg; try apply Z.pow_nonneg; lia).
    assert (Hnq : ndigits (Z.abs c * 10 ^ (j - k)) = prec).
    { rewrite ndigits_mul_pow10 by lia. rewrite ndigits_abs. unfold k. lia. }
    rewrite Hnq, Z.ltb_irrefl.
    destruct (Z.ltb_spec Etop (ndigits c + j + e - prec)) as [Hov | _]; [ lia | ].
    exists (Z.sgn (c * 10 ^ j) * (Z.abs c * 10 ^ (j - k))), (ndigits c + j + e - prec).
    assert (Hsg : Z.sgn (c * 10 ^ j) = Z.sgn c).
    { rewrite Z.sgn_mul, (Z.sgn_pos (10 ^ j)) by lia. lia. }
    rewrite Hsg.
    assert (Hm : Z.sgn c * (Z.abs c * 10 ^ (j - k)) = c * 10 ^ (j - k)).
    { rewrite Z.mul_assoc, (Z.mul_comm (Z.sgn c)), Z.abs_sgn. reflexivity. }
    rewrite Hm.
    assert (Hp' : 0 < 10 ^ (j - k)) by (apply Z.pow_pos_nonneg; lia).
    split; [ reflexivity | ].
    split; [ rewrite Z.sgn_mul, (Z.sgn_pos (10 ^ (j - k))) by lia; lia | ].
    split; [ rewrite ndigits_mul_pow10 by lia; unfold k; lia | ].
    split; [ rewrite ndigits_mul_pow10 by lia; unfold k; lia | ].
    rewrite !qval_q10, inject_Z_mult, <- q10_nonneg_exp by lia.
    rewrite <- Qmult_assoc, <- q10_add.
    replace (j - k + (ndigits c + j + e - prec)) with (e + j) by (unfold k; lia).
    reflexivity.
  - exists (c * 10 ^ j), e.
    split; [ reflexivity | ].
    split; [ rewrite Z.sgn_mul, (Z.sgn_pos (10 ^ j)) by lia; lia | ].
    split; [ rewrite HL; lia | ].
    split; [ rewrite HL; lia | ].
    rewrite !qval_q10, inject_Z_mult, <- q10_nonneg_exp by lia.
    rewrite <- Qmult_assoc, <- q10_add.
    replace (j + e) with (e + j) by lia. reflexivity.
Qed.

Lemma dpow_negative_exponent (m e n : Z) :
  0 < m -> n < 0 ->
  dpow (Fin m e) n = div_nonzero 1 0 (m ^ (- n)) (e * (- n)).
Proof.
  intros Hm Hn. unfold dpow.
  destruct (Z.eqb_spec n 0); [ lia | ].
  destruct (Z.eqb_spec m 0); [ lia | ].
  destruct (Z.ltb_spec 0 n); [ lia | ].
  rewrite (Z.sgn_pos m), (Z.abs_eq m) by lia.
  destruct (Z.even n); reflexivity.
Qed.

(** A power of ten split as [c * 10^i] leaves a power of ten. *)
Lemma power_of_ten_factor (a c i : Z) :
  0 <= a -> 0 <= i -> c * 10 ^ i = 10 ^ a -> i <= a /\ c = 10 ^ (a - i).
Proof.
  intros Ha Hi H.
  assert (Hpa : 0 < 10 ^ a) by (apply Z.pow_pos_nonneg; lia).
  assert (Hpi : 0 < 10 ^ i) by (apply Z.pow_pos_nonneg; lia).
  assert (Hc : 0 < c) by nia.
  destruct (Z.le_gt_cases i a) as [Hle | Hgt].
  - split; trivial.
    assert (E : 10 ^ a = 10 ^ (a - i) * 10 ^ i).
    { rewrite <- Z.pow_add_r by lia. f_equal. lia. }
    rewrite E in H. apply Z.mul_reg_r in H; lia.
  - exfalso.
    assert (E : 10 ^ i = 10 ^ (i - a) * 10 ^ a).
    { rewrite <- Z.pow_add_r by lia. f_equal. lia. }
    assert (1 < 10 ^ (i - a)) by (apply Z.pow_gt_1; lia).
    rewrite E in H. nia.
Qed.

Lemma scale_value (k : Z) :
  -999000 <= k <= 999000 ->
  exists m e,
    dpow (of_int 10) k = Ok (Fin m e) /\
    0 < m /\ ndigits m <= prec /\ mag m e = k + 1 /\ (qval m e == q10 k)%Q.
Proof.
  intros Hk. unfold of_int.
  destruct (Z.lt_trichotomy k 0) as [Hneg | [-> | Hpos]].
  - (* negative exponent: 1 / 10^n *)
    rewrite dpow_negative_exponent by lia.
    set (n := - k). assert (Hn : 0 < n) by (unfold n; lia).
    rewrite Z.mul_0_l. unfold div_nonzero.
    assert (Hpn : 0 < 10 ^ n) by (apply Z.pow_pos_nonneg; lia).
    assert (Hd : ndigits (10 ^ n) = n + 1).
    { rewrite <- (Z.mul_1_l (10 ^ n)), ndigits_mul_pow10 by lia. 
      change (ndigits 1) with 1. lia. }
    rewrite Hd. change (ndigits 1) with 1.
    replace (n + 1 - 1 + prec + 1) with (n + 41) by (unfold prec; lia).
    destruct (Z.leb_spec 0 (n + 41)) as [_ | H]; [ | lia ].
    change (Z.abs 1) with 1. rewrite Z.mul_1_l, (Z.abs_eq (10 ^ n)) by lia.
    assert (E : 10 ^ (n + 41) = 10 ^ 41 * 10 ^ n) by (rewrite Z.pow_add_r by lia; ring).
    rewrite E, Z.div_mul, Z.mod_mul by lia.
    rewrite Z.eqb_refl.
    change (Z.sgn 1) with 1. rewrite (Z.sgn_pos (10 ^ n)) by lia. rewrite Z.mul_1_l.
    destruct (strip_to_ideal (Z.to_nat (0 - 0 - (0 - 0 - (n + 41)))) (10 ^ 41)
                (0 - 0 - (n + 41)) (0 - 0)) as [c x] eqn:Hstrip.
    destruct (strip_to_ideal_spec _ _ _ _ _ _ Hstrip) as [Hx Hcx].
    destruct (power_of_ten_factor 41 c (x - (0 - 0 - (n + 41)))) as [Hi Hc]; try lia.
    rewrite Z.mul_1_l.
    set (j := 41 - (x - (0 - 0 - (n + 41)))) in *.
    destruct (fix_representable 1 j x) as (m' & e' & Hfix & Hs & Hnd & Hmag & Hv);
      try lia.
    { change (ndigits 1) with 1. unfold prec. lia. }
    { unfold mag. change (ndigits 1) with 1. unfold Etiny, Etop, Emin, Emax, prec, j. lia. }
    rewrite Z.mul_1_l in Hfix. rewrite Hc, Hfix.
    exists m', e'. split; [ reflexivity | ].
    split; [ destruct m'; simpl in Hs; lia | ].
    split; [ exact Hnd | ].
    split; [ rewrite Hmag; unfold mag, j; change (ndigits 1) with 1; lia | ].
    rewrite Hv, qval_q10. replace (x + j) with k by (unfold j, n; lia).
    change (inject_Z 1) with 1%Q. ring.
  - exists 1, 0.
    split; [ reflexivity | ]. split; [ lia | ].
    split; [ change (ndigits 1) with 1; unfold prec; lia | ].
    split; reflexivity.
  - rewrite dpow_positive_exponent by lia.
    rewrite <- (Z.mul_1_l (10 ^ k)).
    destruct (fix_representable 1 k (0 * k)) as (m' & e' & Hfix & Hs & Hnd & Hmag & Hv);
      try lia.
    { change (ndigits 1) with 1. unfold prec. lia. }
    { unfold mag. change (ndigits 1) with 1. unfold Etiny, Etop, Emin, Emax, prec. lia. }
    exists m', e'. split; [ exact Hfix | ].
    split; [ destruct m'; simpl in Hs; lia | ].
    split; [ exact Hnd | ].
    split; [ rewrite Hmag; unfold mag; change (ndigits 1) with 1; lia | ].
    rewrite Hv, qval_q10. replace (0 * k + k) with k by lia.
    change (inject_Z 1) with 1%Q. ring.
Qed.


Lemma q_96_value : q_96 = Ok (Fin (2 ^ 96) 0).
Proof. vm_compute. reflexivity. Qed.

Lemma q_96_squared_value : dpow (Fin (2 ^ 96) 0) 2 = Ok q_96_squared.
Proof. vm_compute. reflexivity. Qed.


#[global] Instance close_proper : Proper (Qeq ==> Qeq ==> Qeq ==> iff) close.
Proof.
  intros e1 e2 He v1 v2 Hv r1 r2 Hr. unfold close. rewrite He, Hv, Hr. reflexivity.
Qed.

Lemma ddiv_nonzero (m1 e1 m2 e2 : Z) :
  m1 <> 0 -> m2 <> 0 -> ddiv (Fin m1 e1) (Fin m2 e2) = div_nonzero m1 e1 m2 e2.
Proof.
  intros H1 H2. unfold ddiv.
  destruct (Z.eqb_spec m2 0); [ contradiction | ].
  destruct (Z.eqb_spec m1 0); [ contradiction | reflexivity ].
Qed.

Lemma sgn_pos_inv (m : Z) : Z.sgn m = 1 -> 0 < m.
Proof. destruct m; simpl; intros; lia. Qed.










(** C8, as amended: the converter has no guard on the reciprocal path.  With
    a square-root price of 0 the invert=False result is a zero, and
    invert=True evaluates Decimal(1) / 0, which the decimal context turns
    into the DivisionByZero exception. *)
Theorem zero_price_reciprocal_raises (d0 d1 : Z) :
  0 <= d0 <= 255 -> 0 <= d1 <= 255 ->
  exists e,
    price_from_sqrt_price_x96 0 d0 d1 false = Ok (Fin 0 e) /\
    price_from_sqrt_price_x96 0 d0 d1 true = ddiv (of_int 1) (Fin 0 e) /\
    ddiv (of_int 1) (Fin 0 e) = Raise DivisionByZero.
Proof.
  intros Hd0 Hd1.
  destruct (scale_value (d0 - d1) ltac:(lia)) as (mk & ek & Hsc & _).
  assert (Hcore : forall invert,
             price_from_sqrt_price_x96 0 d0 d1 invert =
             reciprocal_if invert (Fin 0 (Z.min (Z.max (-18 + ek) Etiny) Emax))).
  { intros invert. unfold price_from_sqrt_price_x96.
    change (dpow (of_int 0) 2) with (@Ok Decimal (Fin 0 0)). cbn [bind].
    rewrite q_96_value. cbn [bind]. rewrite q_96_squared_value. cbn [bind].
    change (ddiv (Fin 0 0) q_96_squared) with (@Ok Decimal (Fin 0 (-18))). cbn [bind].
    rewrite Hsc. cbn [bind]. reflexivity. }
  eexists. split; [ apply (Hcore false) | ].
  split; [ apply (Hcore true) | reflexivity ].
Qed.

Lemma zero_price_reciprocal_raises_witness :
  exists e,
    price_from_sqrt_price_x96 0 6 18 false = Ok (Fin 0 e) /\
    price_from_sqrt_price_x96 0 6 18 true = ddiv (of_int 1) (Fin 0 e) /\
    ddiv (of_int 1) (Fin 0 e) = Raise DivisionByZero.
Proof.
  apply (zero_price_reciprocal_raises 6 18); lia.
Defined.

(** The reciprocal path is not guarded: at x = 0 the division is reached and
    ends in the library's DivisionByZero. *)
Lemma reciprocal_of_zero_is_reached :
  price_from_sqrt_price_x96 0 6 18 true = Raise DivisionByZero.
Proof. vm_compute. reflexivity. Qed.

(** ** The signal calculator on prices *)

Lemma aligned_sum_value (m1 e1 m2 e2 : Z) :
  (qval (aligned_sum m1 e1 m2 e2) (Z.min e1 e2) == qval m1 e1 + qval m2 e2)%Q.
Proof.
  unfold aligned_sum. set (e := Z.min e1 e2).
  rewrite !qval_q10, inject_Z_plus, !inject_Z_mult.
  rewrite <- !q10_nonneg_exp by (unfold e; lia).
  assert (E1 : (q10 e1 == q10 (e1 - e) * q10 e)%Q).
  { rewrite <- q10_add. replace (e1 - e + e) with e1 by lia. reflexivity. }
  assert (E2 : (q10 e2 == q10 (e2 - e) * q10 e)%Q).
  { rewrite <- q10_add. replace (e2 - e + e) with e2 by lia. reflexivity. }
  rewrite E1, E2. ring.
Qed.

Lemma mag_scaled (m e j : Z) : m <> 0 -> 0 <= j -> mag (m * 10 ^ j) (e - j) = mag m e.
Proof. intros Hm Hj. unfold mag. rewrite ndigits_mul_pow10 by trivial. lia. Qed.

Lemma aligned_sum_mag (m1 e1 m2 e2 : Z) :
  m1 <> 0 -> m2 <> 0 -> aligned_sum m1 e1 m2 e2 <> 0 ->
  Z.min e1 e2 + 1 <= mag (aligned_sum m1 e1 m2 e2) (Z.min e1 e2)
    <= Z.max (mag m1 e1) (mag m2 e2) + 1.
Proof.
  intros H1 H2 Hs. unfold aligned_sum in *. set (e := Z.min e1 e2) in *.
  set (a := m1 * 10 ^ (e1 - e)) in *. set (b := m2 * 10 ^ (e2 - e)) in *.
  assert (Ha : mag a e = mag m1 e1).
  { unfold a. replace e with (e1 - (e1 - e)) at 2 by lia. apply mag_scaled; unfold e; lia. }
  assert (Hb : mag b e = mag m2 e2).
  { unfold b. replace e with (e2 - (e2 - e)) at 2 by lia. apply mag_scaled; unfold e; lia. }
  assert (Ha0 : a <> 0).
  { unfold a. assert (0 < 10 ^ (e1 - e)) by (apply Z.pow_pos_nonneg; unfold e; lia). nia. }
  assert (Hb0 : b <> 0).
  { unfold b. assert (0 < 10 ^ (e2 - e)) by (apply Z.pow_pos_nonneg; unfold e; lia). nia. }
  unfold mag in *. pose proof (ndigits_pos (a + b)).
  split; [ lia | ].
  destruct (ndigits_bounds a Ha0) as (_ & _ & Hahi).
  destruct (ndigits_bounds b Hb0) as (_ & _ & Hbhi).
  pose proof (ndigits_pos a). pose proof (ndigits_pos b).
  set (M := Z.max (ndigits a) (ndigits b)).
  assert (Hle : ndigits (a + b) <= M + 1).
  { apply ndigits_upper; [ exact Hs | ].
    assert (10 ^ ndigits a <= 10 ^ M) by (apply Z.pow_le_mono_r; unfold M; lia).
    assert (10 ^ ndigits b <= 10 ^ M) by (apply Z.pow_le_mono_r; unfold M; lia).
    rewrite Z.pow_add_r by (unfold M; lia). simpl (10 ^ 1). lia. }
  unfold M in Hle. lia.
Qed.

Lemma dadd_close (m1 e1 m2 e2 : Z) :
  m1 <> 0 -> m2 <> 0 -> aligned_sum m1 e1 m2 e2 <> 0 ->
  Etiny + prec <= Z.min e1 e2 + 1 ->
  Z.max (mag m1 e1) (mag m2 e2) + 1 <= Etop + prec - 1 ->
  exists m e,
    dadd (Fin m1 e1) (Fin m2 e2) = Ok (Fin m e) /\
    Z.sgn m = Z.sgn (aligned_sum m1 e1 m2 e2) /\
    ndigits m <= prec /\
    Z.min e1 e2 + 1 <= mag m e <= Z.max (mag m1 e1) (mag m2 e2) + 2 /\
    close half_ulp (qval m1 e1 + qval m2 e2) (qval m e).
Proof.
  intros H1 H2 Hs Hlo Hhi.
  pose proof (aligned_sum_mag m1 e1 m2 e2 H1 H2 Hs) as Hmag.
  destruct (fix_close _ (Z.min e1 e2) Hs) as (m & e & Hfix & Hsg & Hnd & Hmg & Hc); [ lia | ].
  exists m, e. split; [ exact Hfix | ].
  split; [ exact Hsg | ]. split; [ exact Hnd | ]. split; [ lia | ].
  rewrite <- aligned_sum_value. exact Hc.
Qed.

Lemma half_ulp_nonneg : (0 <= half_ulp)%Q.
Proof. unfold half_ulp, Qle; simpl; lia. Qed.

Lemma ulp_nonneg : (0 <= ulp)%Q.
Proof. unfold ulp, Qle; simpl; lia. Qed.

Lemma percent_of_zero (e0 mt et : Z) :
  mt <> 0 ->
  exists e,
    (q <- ddiv (Fin 0 e0) (Fin mt et) ;; dmul q (of_int 100)) = Ok (Fin 0 e).
Proof.
  intros Hmt. unfold ddiv.
  destruct (Z.eqb_spec mt 0) as [| _]; [ contradiction | ].
  simpl (0 =? 0). cbv iota.
  destruct (fix_zero (e0 - et)) as (e1 & ->). cbn [bind].
  unfold dmul, of_int. simpl (0 * 100). apply fix_zero.
Qed.

Lemma percent_of_quotient (md ed mt et : Z) (D T eD eT : Q) :
  md <> 0 -> 0 < mt ->
  -3000 <= mag md ed <= 3000 -> -3000 <= mag mt et <= 3000 ->
  close eD D (qval md ed) -> close eT T (qval mt et) ->
  (0 < T)%Q -> (eT < 1)%Q ->
  exists m e,
    (q <- ddiv (Fin md ed) (Fin mt et) ;; dmul q (of_int 100)) = Ok (Fin m e) /\
    close (percent_eps eD eT) (D / T * 100) (qval m e).
Proof.
  intros Hmd Hmt Hrd Hrt HD HT HTpos HeT.
  rewrite ddiv_nonzero by lia.
  destruct (div_close md ed mt et) as (mq & eq & Hdiv & Hsq & _ & Hmq & Hcq); [ lia | lia | | ].
  { unfold Etiny, Etop, Emin, Emax, prec. lia. }
  rewrite Hdiv. cbn [bind]. unfold of_int.
  assert (Hmq0 : mq <> 0).
  { intros ->. simpl in Hsq. destruct md, mt; simpl in Hsq; lia. }
  assert (H100 : mag 100 0 = 3) by reflexivity.
  destruct (dmul_close mq eq 100 0) as (m & e & Hmul & _ & _ & _ & Hcm); [ lia | lia | | ].
  { rewrite H100. unfold Etiny, Etop, Emin, Emax, prec. lia. }
  exists m, e. split; [ exact Hmul | ].
  pose proof (close_div_pos _ _ _ _ _ _ HD HT HTpos HeT) as H1.
  pose proof (close_trans _ _ _ _ _ ulp_nonneg H1 Hcq) as H2.
  assert (H3 : close (eD + eT / (1 - eT) + eD * (eT / (1 - eT)) + ulp +
                      (eD + eT / (1 - eT) + eD * (eT / (1 - eT))) * ulp)
                 (D / T * 100) (qval mq eq * qval 100 0)).
  { change (qval 100 0) with 100%Q.
    rewrite (Qmult_comm (D / T)), (Qmult_comm (qval mq eq)).
    apply close_scale. exact H2. }
  pose proof (close_trans _ _ _ _ _ half_ulp_nonneg H3 Hcm) as H4.
  exact H4.
Qed.

Lemma qval_opp (m e : Z) : (qval (- m) e == - qval m e)%Q.
Proof. rewrite !qval_q10, inject_Z_opp. ring. Qed.

Lemma qval_zero (e : Z) : (qval 0 e == 0)%Q.
Proof. rewrite qval_q10. change (inject_Z 0) with 0%Q. ring. Qed.

Lemma dadd_aligned (m1 e1 m2 e2 : Z) :
  dadd (Fin m1 e1) (Fin m2 e2) = fix_ (aligned_sum m1 e1 m2 e2) (Z.min e1 e2).
Proof. reflexivity. Qed.

Lemma price_like_exponent (m e : Z) : price_like m e -> -1040 <= e <= 1000.
Proof.
  intros (Hm & Hn & Hmag). unfold mag, prec in *. pose proof (ndigits_pos m). lia.
Qed.

Lemma twap_deviation_close (mp ep mt et : Z) :
  price_like mp ep -> price_like mt et ->
  exists m e,
    twap_deviation (Fin mp ep) (Fin mt et) = Ok (Fin m e) /\
    close signal_eps (twap_deviation_exact (qval mp ep) (qval mt et)) (qval m e).
Proof.
  intros Hp Ht.
  pose proof (price_like_exponent _ _ Hp) as Hep.
  pose proof (price_like_exponent _ _ Ht) as Het.
  destruct Hp as (Hmp & Hnp & Hmagp). destruct Ht as (Hmt & Hnt & Hmagt).
  assert (Htpos : (0 < qval mt et)%Q) by (apply qval_pos; exact Hmt).
  unfold twap_deviation, dsub, dneg, twap_deviation_exact.
  pose proof (aligned_sum_value mp ep (- mt) et) as Hval. rewrite qval_opp in Hval.
  destruct (Z.eq_dec (aligned_sum mp ep (- mt) et) 0) as [Hz | Hnz].
  - rewrite dadd_aligned, Hz. destruct (fix_zero (Z.min ep et)) as (e0 & ->). cbn [bind].
    destruct (percent_of_zero e0 mt et ltac:(lia)) as (e & ->).
    exists 0, e. split; [ reflexivity | ].
    rewrite Hz, qval_zero in Hval.
    apply close_refl; [ unfold signal_eps, Qle; simpl; lia | ].
    rewrite qval_zero.
    assert (E : (qval mp ep - qval mt et == 0)%Q) by (rewrite Hval; ring).
    rewrite E. field. intros H. rewrite H in Htpos. discriminate.
  - destruct (dadd_close mp ep (- mt) et) as (md & ed & Hadd & Hsd & _ & Hmagd & Hcd);
      try lia.
    { unfold Etiny, Emin, prec. lia. }
    { replace (mag (- mt) et) with (mag mt et)
        by (unfold mag, ndigits; rewrite Z.abs_opp; reflexivity).
      unfold Etop, Emax, prec. lia. }
    rewrite Hadd. cbn [bind].
    replace (mag (- mt) et) with (mag mt et) in Hmagd
      by (unfold mag, ndigits; rewrite Z.abs_opp; reflexivity).
    assert (Hmd : md <> 0).
    { intros ->. simpl in Hsd. destruct (aligned_sum mp ep (- mt) et); simpl in Hsd; lia. }
    destruct (percent_of_quotient md ed mt et
                (qval mp ep - qval mt et) (qval mt et) half_ulp 0)
      as (m & e & Hrun & Hc); trivial; try lia.
    + unfold Qminus. rewrite <- qval_opp. exact Hcd.
    + apply close_refl; [ apply Qle_refl | reflexivity ].
    + reflexivity.
    + exists m, e. split; [ exact Hrun | ].
      apply (close_weaken _ _ _ _ Hc).
      unfold percent_eps, half_ulp, ulp, signal_eps. vm_compute. discriminate.
Qed.

Lemma cross_deviation_close (ma ea mb eb : Z) :
  price_like ma ea -> price_like mb eb ->
  exists m e,
    cross_deviation (Fin ma ea) (Fin mb eb) = Ok (Fin m e) /\
    close signal_eps (cross_exact (qval ma ea) (qval mb eb)) (qval m e).
Proof.
  intros Ha Hb.
  pose proof (price_like_exponent _ _ Ha) as Hea.
  pose proof (price_like_exponent _ _ Hb) as Heb.
  destruct Ha as (Hma & Hna & Hmaga). destruct Hb as (Hmb & Hnb & Hmagb).
  assert (Hapos : (0 < qval ma ea)%Q) by (apply qval_pos; exact Hma).
  assert (Hbpos : (0 < qval mb eb)%Q) by (apply qval_pos; exact Hmb).
  (* the sum and the average *)
  assert (Hsum : 0 < aligned_sum ma ea mb eb).
  { unfold aligned_sum.
    assert (0 < 10 ^ (ea - Z.min ea eb)) by (apply Z.pow_pos_nonneg; lia).
    assert (0 < 10 ^ (eb - Z.min ea eb)) by (apply Z.pow_pos_nonneg; lia). nia. }
  destruct (dadd_close ma ea mb eb) as (mT & eT & Hadd & HsT & _ & HmagT & HcT); try lia.
  { unfold Etiny, Emin, prec. lia. }
  { unfold Etop, Emax, prec. lia. }
  assert (HmT : 0 < mT).
  { apply sgn_pos_inv. rewrite HsT. apply Z.sgn_pos. exact Hsum. }
  assert (H2 : mag 2 0 = 1) by reflexivity.
  destruct (div_close mT eT 2 0) as (mA & eA & Hdiv & HsA & _ & HmagA & HcA); try lia.
  { rewrite H2. unfold Etiny, Etop, Emin, Emax, prec. lia. }
  assert (HmA : 0 < mA).
  { apply sgn_pos_inv. rewrite HsA, (Z.sgn_pos mT) by lia. reflexivity. }
  rewrite H2 in HmagA.
  assert (Havg : close (half_ulp + ulp + half_ulp * ulp)
                   ((qval ma ea + qval mb eb) / 2) (qval mA eA)).
  { assert (H1 : close half_ulp ((qval ma ea + qval mb eb) / 2) (qval mT eT / qval 2 0)).
    { change (qval 2 0) with 2%Q. unfold Qdiv.
      rewrite (Qmult_comm (qval ma ea + qval mb eb)), (Qmult_comm (qval mT eT)).
      apply close_scale. exact HcT. }
    exact (close_trans _ _ _ _ _ ulp_nonneg H1 HcA). }
  assert (Havgpos : (0 < (qval ma ea + qval mb eb) / 2)%Q).
  { apply Qlt_shift_div_l; [ reflexivity | ]. lra. }
  (* the difference *)
  unfold cross_deviation, dsub, dneg, cross_exact.
  pose proof (aligned_sum_value ma ea (- mb) eb) as Hval. rewrite qval_opp in Hval.
  destruct (Z.eq_dec (aligned_sum ma ea (- mb) eb) 0) as [Hz | Hnz].
  - rewrite dadd_aligned, Hz. destruct (fix_zero (Z.min ea eb)) as (e0 & ->). cbn [bind].
    rewrite Hadd. cbn [bind]. unfold of_int at 1. rewrite ddiv_nonzero, Hdiv by lia.
    cbn [bind].
    destruct (percent_of_zero e0 mA eA ltac:(lia)) as (e & ->).
    exists 0, e. split; [ reflexivity | ].
    rewrite Hz, qval_zero in Hval.
    apply close_refl; [ unfold signal_eps, Qle; simpl; lia | ].
    rewrite qval_zero.
    assert (E : (qval ma ea - qval mb eb == 0)%Q) by (rewrite Hval; ring).
    rewrite E. field. lra.
  - destruct (dadd_close ma ea (- mb) eb) as (md & ed & Hsub & Hsd & _ & Hmagd & Hcd);
      try lia.
    { unfold Etiny, Emin, prec. lia. }
    { replace (mag (- mb) eb) with (mag mb eb)
        by (unfold mag, ndigits; rewrite Z.abs_opp; reflexivity).
      unfold Etop, Emax, prec. lia. }
    rewrite Hsub. cbn [bind]. rewrite Hadd. cbn [bind].
    unfold of_int at 1. rewrite ddiv_nonzero, Hdiv by lia. cbn [bind].
    replace (mag (- mb) eb) with (mag mb eb) in Hmagd
      by (unfold mag, ndigits; rewrite Z.abs_opp; reflexivity).
    assert (Hmd : md <> 0).
    { intros ->. simpl in Hsd. destruct (aligned_sum ma ea (- mb) eb); simpl in Hsd; lia. }
    destruct (percent_of_quotient md ed mA eA
                (qval ma ea - qval mb eb) ((qval ma ea + qval mb eb) / 2)
                half_ulp (half_ulp + ulp + half_ulp * ulp))
      as (m & e & Hrun & Hc); trivial; try lia.
    + unfold Qminus. rewrite <- qval_opp. exact Hcd.
    + reflexivity.
    + exists m, e. split; [ exact Hrun | ].
      apply (close_weaken _ _ _ _ Hc).
      unfold percent_eps, half_ulp, ulp, signal_eps. vm_compute. discriminate.
Qed.

Example cross_deviation_2000_2010 :
  cross_deviation (of_int 2000) (of_int 2010)
  = Ok (Fin (-4987531172069825436408977556109725685786) (-40)).
Proof. vm_compute. reflexivity. Qed.

Example cross_deviation_2000_2010_rounds_to_minus_0_4988 :
  (- (49885 # 100000) < qval (-4987531172069825436408977556109725685786) (-40)
     < - (49875 # 100000))%Q.
Proof. split; reflexivity. Qed.

Example twap_deviation_2000_1990 :
  twap_deviation (of_int 2000) (of_int 1990)
  = Ok (Fin 5025125628140703517587939698492462311558 (-40)).
Proof. vm_compute. reflexivity. Qed.

Example twap_deviation_2000_1990_rounds_to_0_5025 :
  (50245 # 100000 < qval 5025125628140703517587939698492462311558 (-40)
     < 50255 # 100000)%Q.
Proof. split; reflexivity. Qed.



(** ** The tick price converter *)










(** ** Cross-consistency of the two converters *)














Example sqrt_price_of_tick_20 :
  is_sqrt_price_of_tick 20 79307426338960776842885539844.
Proof. unfold is_sqrt_price_of_tick. vm_compute. repeat split; (reflexivity || discriminate). Qed.

(** * Further properties of the code *)

(** ** The TWAP calculator on bounded ticks *)

(** X1: for a positive window, when the difference of the two cumulative
    ticks lies between lo * window and hi * window (every tick of the window
    was between lo and hi), [compute_twap] returns a tick between lo and hi;
    in particular a constant tick t is returned unchanged. *)
Theorem compute_twap_within_tick_bounds
    (pool : PoolState) (w cs ce lo hi : Z) (more secs : list Z) :
  0 < w ->
  observe pool [w; 0] = Ok (cs :: ce :: more, secs) ->
  lo * w <= ce - cs <= hi * w ->
  exists t, compute_twap pool w = Ok t /\ lo <= t <= hi.
Proof.
  intros Hw Hobs [Hlo Hhi].
  exists ((ce - cs) / w). split.
  - unfold compute_twap. rewrite Hobs. cbn [bind fst index nth_error].
    unfold floordiv. destruct (Z.eqb_spec w 0); [ lia | reflexivity ].
  - split.
    + apply Z.div_le_lower_bound; lia.
    + apply Z.div_le_upper_bound; lia.
Qed.

Lemma compute_twap_within_tick_bounds_witness :
  exists t, compute_twap (fixed_pool (2 ^ 96) 0 1000 [100; 6100]) 300 = Ok t /\ 20 <= t <= 20.
Proof.
  apply (compute_twap_within_tick_bounds
           (fixed_pool (2 ^ 96) 0 1000 [100; 6100]) 300 100 6100 20 20 [] []).
  - lia.
  - reflexivity.
  - lia.
Defined.

(** X2: [compute_twap] raises exactly in three cases: the exception of a
    failed [observe] call, unchanged; IndexError when [observe] returns fewer
    than two cumulative ticks (whatever the window, 0 included); and
    ZeroDivisionError when it returns at least two and the window is 0. *)
Theorem compute_twap_raises_iff (pool : PoolState) (w : Z) (e : exn) :
  compute_twap pool w = Raise e <->
  observe pool [w; 0] = Raise e \/
  (exists ticks secs,
      observe pool [w; 0] = Ok (ticks, secs) /\
      ((List.length ticks < 2)%nat /\ e = IndexError \/
       (2 <= List.length ticks)%nat /\ w = 0 /\ e = ZeroDivisionError)).
Proof.
  unfold compute_twap.
  destruct (observe pool [w; 0]) as [[ticks secs] | e0] eqn:Hobs; cbn [bind fst].
  - split.
    + intros H. right. exists ticks, secs. split; [ reflexivity | ].
      destruct ticks as [ | a [ | b more ] ]; cbn in H.
      * left. split; [ simpl; lia | congruence ].
      * left. split; [ simpl; lia | congruence ].
      * right. unfold floordiv in H. destruct (Z.eqb_spec w 0); [ | discriminate ].
        split; [ simpl; lia | ]. split; [ assumption | congruence ].
    + intros [H | (t & s & Heq & H)]; [ discriminate | ].
      injection Heq as <- <-.
      destruct H as [[Hlen ->] | (Hlen & -> & ->)].
      * destruct ticks as [ | a [ | b more ] ]; cbn in *; try reflexivity. lia.
      * destruct ticks as [ | a [ | b more ] ]; cbn in *; try lia. reflexivity.
  - split.
    + intros H. left. congruence.
    + intros [H | (t & s & Heq & _)]; [ congruence | discriminate ].
Qed.

(** ** Outcomes of the sampling loop *)





(** ** The tick price converter, both directions *)

Lemma q10_le (a b : Z) : a <= b -> (q10 a <= q10 b)%Q.
Proof. intros H. unfold q10. apply Qpower_le_compat_l; [ exact H | discriminate ]. Qed.









(** ** The decimal counts only shift the decimal point *)







(** ** Iterations on well-formed reads *)








(** ** Signs of the deviation signals *)

Lemma close_sign (eps v r : Q) :
  close eps v r -> (eps < 1)%Q ->
  ((v < 0)%Q -> (r < 0)%Q) /\ ((v == 0)%Q -> (r == 0)%Q) /\ ((0 < v)%Q -> (0 < r)%Q).
Proof.
  unfold close. intros H He.
  apply Qabs_Qle_condition in H. destruct H as [Hl Hu].
  split; [ | split ].
  - intros Hv. rewrite (Qabs_neg v) in Hl, Hu by lra. nra.
  - intros Hv. rewrite Hv in Hl, Hu. simpl (Qabs 0) in *. lra.
  - intros Hv. rewrite (Qabs_pos v) in Hl, Hu by lra. nra.
Qed.

Lemma qval_sign_inv (m e : Z) :
  ((qval m e < 0)%Q -> m < 0) /\ ((qval m e == 0)%Q -> m = 0) /\ ((0 < qval m e)%Q -> 0 < m).
Proof.
  pose proof (q10_pos e) as He.
  split; [ | split ]; intros H.
  - destruct (Z.lt_ge_cases m 0) as [Hm | Hm]; [ exact Hm | exfalso ].
    rewrite qval_q10 in H.
    assert (0 <= inject_Z m)%Q by (change 0%Q with (inject_Z 0); rewrite <- Zle_Qle; exact Hm).
    nra.
  - destruct (Z.eq_dec m 0) as [Hm | Hm]; [ exact Hm | ].
    exfalso. exact (qval_nonzero m e Hm H).
  - destruct (Z.lt_ge_cases 0 m) as [Hm | Hm]; [ exact Hm | exfalso ].
    rewrite qval_q10 in H.
    assert (inject_Z m <= 0)%Q by (change 0%Q with (inject_Z 0); rewrite <- Zle_Qle; exact Hm).
    nra.
Qed.

Lemma cross_exact_sign (pa pb : Q) :
  (0 < pa)%Q -> (0 < pb)%Q ->
  ((pa < pb)%Q -> (cross_exact pa pb < 0)%Q) /\
  ((pa == pb)%Q -> (cross_exact pa pb == 0)%Q) /\
  ((pb < pa)%Q -> (0 < cross_exact pa pb)%Q).
Proof.
  intros Ha Hb. unfold cross_exact, Qdiv.
  assert (Hd : (0 < / ((pa + pb) * / 2))%Q).
  { apply Qinv_lt_0_compat. apply Qmult_lt_0_compat; [ lra | reflexivity ]. }
  set (D := (/ ((pa + pb) * / 2))%Q) in *.
  split; [ | split ]; intros H.
  - nra.
  - assert (E : (pa - pb == 0)%Q) by lra. rewrite E. ring.
  - nra.
Qed.

Lemma twap_deviation_exact_sign (p t : Q) :
  (0 < t)%Q ->
  ((p < t)%Q -> (twap_deviation_exact p t < 0)%Q) /\
  ((p == t)%Q -> (twap_deviation_exact p t == 0)%Q) /\
  ((t < p)%Q -> (0 < twap_deviation_exact p t)%Q).
Proof.
  intros Ht. unfold twap_deviation_exact, Qdiv.
  pose proof (Qinv_lt_0_compat _ Ht) as Hd.
  set (D := (/ t)%Q) in *.
  split; [ | split ]; intros H.
  - nra.
  - assert (E : (p - t == 0)%Q) by lra. rewrite E. ring.
  - nra.
Qed.

(** X11: for two positive prices such as the converters return, the
    cross-pool deviation is computed without exception and its sign is that
    of price_a - price_b: negative when pool A is below pool B, exactly zero
    when the prices are equal, positive when A is above B. *)
Theorem cross_deviation_sign (ma ea mb eb : Z) :
  price_like ma ea -> price_like mb eb ->
  exists m e,
    cross_deviation (Fin ma ea) (Fin mb eb) = Ok (Fin m e) /\
    ((qval ma ea < qval mb eb)%Q -> m < 0) /\
    ((qval ma ea == qval mb eb)%Q -> m = 0) /\
    ((qval mb eb < qval ma ea)%Q -> 0 < m).
Proof.
  intros Ha Hb.
  destruct (cross_deviation_close ma ea mb eb Ha Hb) as (m & e & Hrun & Hc).
  exists m, e. split; [ exact Hrun | ].
  assert (Hpa : (0 < qval ma ea)%Q) by (apply qval_pos; apply Ha).
  assert (Hpb : (0 < qval mb eb)%Q) by (apply qval_pos; apply Hb).
  destruct (close_sign _ _ _ Hc ltac:(reflexivity)) as (Hn & Hz & Hp).
  destruct (cross_exact_sign _ _ Hpa Hpb) as (Hn' & Hz' & Hp').
  destruct (qval_sign_inv m e) as (Hn'' & Hz'' & Hp'').
  repeat split; intros H; auto.
Qed.

Lemma cross_deviation_sign_witness :
  exists m e,
    cross_deviation (Fin 2000 0) (Fin 2010 0) = Ok (Fin m e) /\
    ((qval 2000 0 < qval 2010 0)%Q -> m < 0) /\
    ((qval 2000 0 == qval 2010 0)%Q -> m = 0) /\
    ((qval 2010 0 < qval 2000 0)%Q -> 0 < m).
Proof.
  apply (cross_deviation_sign 2000 0 2010 0).
  - split; [ lia | ]. split; vm_compute; [ discriminate | split; discriminate ].
  - split; [ lia | ]. split; vm_compute; [ discriminate | split; discriminate ].
Defined.

(** X12: for a positive price and a positive TWAP price such as the
    converters return, the TWAP deviation is computed without exception and
    its sign is that of price - twap_price: negative below the TWAP, exactly
    zero at the TWAP, positive above it. *)
Theorem twap_deviation_sign (mp ep mt et : Z) :
  price_like mp ep -> price_like mt et ->
  exists m e,
    twap_deviation (Fin mp ep) (Fin mt et) = Ok (Fin m e) /\
    ((qval mp ep < qval mt et)%Q -> m < 0) /\
    ((qval mp ep == qval mt et)%Q -> m = 0) /\
    ((qval mt et < qval mp ep)%Q -> 0 < m).
Proof.
  intros Hp Ht.
  destruct (twap_deviation_close mp ep mt et Hp Ht) as (m & e & Hrun & Hc).
  exists m, e. split; [ exact Hrun | ].
  assert (Hpt : (0 < qval mt et)%Q) by (apply qval_pos; apply Ht).
  destruct (close_sign _ _ _ Hc ltac:(reflexivity)) as (Hn & Hz & Hpos).
  destruct (twap_deviation_exact_sign (qval mp ep) _ Hpt) as (Hn' & Hz' & Hp').
  destruct (qval_sign_inv m e) as (Hn'' & Hz'' & Hp'').
  repeat split; intros H; auto.
Qed.

Lemma twap_deviation_sign_witness :
  exists m e,
    twap_deviation (Fin 2000 0) (Fin 1990 0) = Ok (Fin m e) /\
    ((qval 2000 0 < qval 1990 0)%Q -> m < 0) /\
    ((qval 2000 0 == qval 1990 0)%Q -> m = 0) /\
    ((qval 1990 0 < qval 2000 0)%Q -> 0 < m).
Proof.
  apply (twap_deviation_sign 2000 0 1990 0).
  - split; [ lia | ]. split; vm_compute; [ discriminate | split; discriminate ].
  - split; [ lia | ]. split; vm_compute; [ discriminate | split; discriminate ].
Defined.

(** ** Swapping the two pools *)

Lemma ndigits_opp (m : Z) : ndigits (- m) = ndigits m.
Proof. rewrite <- (ndigits_abs (- m)), Z.abs_opp. apply ndigits_abs. Qed.

(** Rounding half to even is symmetric in the sign. *)
Lemma fix_opp (m e : Z) : fix_ (- m) e = negated (fix_ m e).
Proof.
  unfold fix_.
  destruct (Z.eqb_spec m 0) as [-> | Hm]; [ reflexivity | ].
  destruct (Z.eqb_spec (- m) 0) as [H0 | _]; [ lia | ].
  rewrite ndigits_opp, Z.abs_opp, Z.sgn_opp.
  destruct (Etop <? ndigits m + e - prec); [ reflexivity | ].
  destruct (e <? Z.max (ndigits m + e - prec) Etiny); [ | reflexivity ].
  cbv zeta.
  destruct (Etop <? _); [ reflexivity | ].
  cbn [negated dneg]. rewrite Z.mul_opp_l. reflexivity.
Qed.

Lemma dsub_swap (m1 e1 m2 e2 : Z) :
  dsub (Fin m2 e2) (Fin m1 e1) = negated (dsub (Fin m1 e1) (Fin m2 e2)).
Proof.
  unfold dsub, dneg, dadd. rewrite (Z.min_comm e2 e1), <- fix_opp.
  f_equal. ring.
Qed.

Lemma dadd_comm (m1 e1 m2 e2 : Z) :
  dadd (Fin m2 e2) (Fin m1 e1) = dadd (Fin m1 e1) (Fin m2 e2).
Proof. unfold dadd. rewrite (Z.min_comm e2 e1). f_equal. ring. Qed.

Lemma div_nonzero_opp (m1 e1 m2 e2 : Z) :
  div_nonzero (- m1) e1 m2 e2 = negated (div_nonzero m1 e1 m2 e2).
Proof.
  unfold div_nonzero. rewrite ndigits_opp, Z.abs_opp, Z.sgn_opp.
  cbv zeta.
  destruct (_ =? 0).
  - destruct (strip_to_ideal _ _ _ _) as [c x].
    rewrite <- fix_opp. f_equal. ring.
  - rewrite <- fix_opp. f_equal. ring.
Qed.

Lemma ddiv_opp (m1 e1 : Z) (b : Decimal) :
  ddiv (Fin (- m1) e1) b = negated (ddiv (Fin m1 e1) b).
Proof.
  destruct b as [m2 e2 | s]; [ | reflexivity ].
  unfold ddiv.
  replace (- m1 =? 0) with (m1 =? 0)
    by (destruct (Z.eqb_spec m1 0), (Z.eqb_spec (- m1) 0); lia).
  destruct (m2 =? 0); [ destruct (m1 =? 0); reflexivity | ].
  destruct (m1 =? 0); [ apply (fix_opp 0) | apply div_nonzero_opp ].
Qed.

Lemma dmul_opp (m1 e1 m2 e2 : Z) :
  dmul (Fin (- m1) e1) (Fin m2 e2) = negated (dmul (Fin m1 e1) (Fin m2 e2)).
Proof. unfold dmul. rewrite <- fix_opp. f_equal. ring. Qed.

(** X13: swapping the two prices negates the cross-pool deviation exactly,
    for any two finite decimals: the swapped call returns the negated decimal
    (the roundings are symmetric in the sign), or raises the same
    exception. *)
Theorem cross_deviation_antisymmetric (ma ea mb eb : Z) :
  cross_deviation (Fin mb eb) (Fin ma ea)
  = negated (cross_deviation (Fin ma ea) (Fin mb eb)).
Proof.
  unfold cross_deviation.
  rewrite dsub_swap, dadd_comm.
  destruct (dsub (Fin ma ea) (Fin mb eb)) as [diff | x] eqn:Hdiff; [ | reflexivity ].
  apply fix_finite in Hdiff. destruct Hdiff as (md & ed & ->).
  cbn [negated dneg bind].
  destruct (dadd (Fin ma ea) (Fin mb eb)) as [total | x]; [ | reflexivity ].
  cbn [bind].
  destruct (ddiv total (of_int 2)) as [avg | x]; [ | reflexivity ].
  cbn [bind]. rewrite ddiv_opp.
  destruct (ddiv (Fin md ed) avg) as [q | x] eqn:Hq; [ | reflexivity ].
  cbn [negated bind].
  destruct q as [mq eq | s]; cbn [dneg].
  - apply dmul_opp.
  - destruct s; reflexivity.
Qed.

(** ** Range of the deviation signals *)

Lemma cross_exact_bounds (pa pb : Q) :
  (0 < pa)%Q -> (0 < pb)%Q -> (-200 < cross_exact pa pb < 200)%Q.
Proof.
  intros Ha Hb. unfold cross_exact, Qdiv.
  assert (Hs : (0 < (pa + pb) * / 2)%Q) by (apply Qmult_lt_0_compat; [ lra | reflexivity ]).
  assert (Hd : (0 < / ((pa + pb) * / 2))%Q) by (apply Qinv_lt_0_compat; exact Hs).
  assert (E : ((pa + pb) * / ((pa + pb) * / 2) == 2)%Q).
  { field. intros H. lra. }
  set (D := (/ ((pa + pb) * / 2))%Q) in *.
  split; nra.
Qed.

Lemma twap_deviation_exact_lower (p t : Q) :
  (0 < p)%Q -> (0 < t)%Q -> (-100 < twap_deviation_exact p t)%Q.
Proof.
  intros Hp Ht. unfold twap_deviation_exact, Qdiv.
  pose proof (Qinv_lt_0_compat _ Ht) as Hd.
  assert (E : (t * / t == 1)%Q) by (field; intros H; lra).
  set (D := (/ t)%Q) in *. nra.
Qed.

Lemma close_abs_bound (eps v r b : Q) :
  close eps v r -> (0 <= eps)%Q -> (- b < v < b)%Q ->
  (- (b * (1 + eps)) <= r <= b * (1 + eps))%Q.
Proof.
  unfold close. intros H He [Hl Hu].
  apply Qabs_Qle_condition in H. destruct H as [H1 H2].
  destruct (Qlt_le_dec v 0) as [Hv | Hv].
  - rewrite (Qabs_neg v) in H1, H2 by lra. split; nra.
  - rewrite (Qabs_pos v) in H1, H2 by lra. split; nra.
Qed.

Lemma close_lower_bound (eps v r b : Q) :
  close eps v r -> (0 <= eps <= 1)%Q -> (0 <= b)%Q -> (- b < v)%Q ->
  (- (b * (1 + eps)) <= r)%Q.
Proof.
  unfold close. intros H [He He1] Hb Hl.
  apply Qabs_Qle_condition in H. destruct H as [H1 H2].
  destruct (Qlt_le_dec v 0) as [Hv | Hv].
  - rewrite (Qabs_neg v) in H1, H2 by lra. nra.
  - rewrite (Qabs_pos v) in H1, H2 by lra. nra.
Qed.

(** X14: for positive prices such as the converters return, the cross-pool
    deviation lies within 200 * (1 + 4e-39) percent of zero on either side,
    and each TWAP deviation is at least -100 * (1 + 4e-39) percent. *)
Theorem signals_bounded (ma ea mb eb mta eta mtb etb : Z) :
  price_like ma ea -> price_like mb eb ->
  price_like mta eta -> price_like mtb etb ->
  exists mc ec mda eda mdb edb,
    signals (Fin ma ea) (Fin mb eb) (Fin mta eta) (Fin mtb etb)
    = Ok {| cross_pool_deviation := Fin mc ec;
            twap_deviation_a := Fin mda eda;
            twap_deviation_b := Fin mdb edb |} /\
    (- (200 * (1 + signal_eps)) <= qval mc ec <= 200 * (1 + signal_eps))%Q /\
    (- (100 * (1 + signal_eps)) <= qval mda eda)%Q /\
    (- (100 * (1 + signal_eps)) <= qval mdb edb)%Q.
Proof.
  intros Ha Hb Hta Htb.
  destruct (cross_deviation_close _ _ _ _ Ha Hb) as (mc & ec & Hc & Hcc).
  destruct (twap_deviation_close _ _ _ _ Ha Hta) as (mda & eda & Hda & Hcda).
  destruct (twap_deviation_close _ _ _ _ Hb Htb) as (mdb & edb & Hdb & Hcdb).
  exists mc, ec, mda, eda, mdb, edb.
  split; [ unfold signals; rewrite Hc, Hda, Hdb; reflexivity | ].
  assert (Hpa : (0 < qval ma ea)%Q) by (apply qval_pos; apply Ha).
  assert (Hpb : (0 < qval mb eb)%Q) by (apply qval_pos; apply Hb).
  assert (Hpta : (0 < qval mta eta)%Q) by (apply qval_pos; apply Hta).
  assert (Hptb : (0 < qval mtb etb)%Q) by (apply qval_pos; apply Htb).
  assert (He : (0 <= signal_eps)%Q) by (unfold signal_eps, Qle; simpl; lia).
  assert (He1 : (signal_eps <= 1)%Q) by (unfold signal_eps, Qle; simpl; lia).
  split; [ | split ].
  - apply (close_abs_bound _ _ _ _ Hcc He). apply cross_exact_bounds; assumption.
  - apply (close_lower_bound _ _ _ _ Hcda (conj He He1)); [ discriminate | ].
    apply twap_deviation_exact_lower; assumption.
  - apply (close_lower_bound _ _ _ _ Hcdb (conj He He1)); [ discriminate | ].
    apply twap_deviation_exact_lower; assumption.
Qed.

Lemma signals_bounded_witness :
  exists mc ec mda eda mdb edb,
    signals (Fin 2000 0) (Fin 2010 0) (Fin 1990 0) (Fin 2000 0)
    = Ok {| cross_pool_deviation := Fin mc ec;
            twap_deviation_a := Fin mda eda;
            twap_deviation_b := Fin mdb edb |} /\
    (- (200 * (1 + signal_eps)) <= qval mc ec <= 200 * (1 + signal_eps))%Q /\
    (- (100 * (1 + signal_eps)) <= qval mda eda)%Q /\
    (- (100 * (1 + signal_eps)) <= qval mdb edb)%Q.
Proof.
  apply (signals_bounded 2000 0 2010 0 1990 0 2000 0);
    (split; [ lia | ]; split; vm_compute; [ discriminate | split; discriminate ]).
Defined.

(** The bound of 200 itself is not kept: with one price negligible beside
    the other the rounded average falls below half the sum and the signal
    comes out one unit in the 40th digit above 200. *)
Example cross_deviation_above_200 :
  cross_deviation (Fin 2400128688229917836600357523758563117341 (-38)) (Fin 5019 (-58))
  = Ok (Fin 2000000000000000000000000000000000000001 (-37)).
Proof. vm_compute. reflexivity. Qed.

(** ** Order of spot prices *)




(** Above 10^38 the order can be lost: two adjacent square-root prices near
    2^159 differ in the 48th digit and give the same price. *)
Example price_collapses_at_large_sqrt_price :
  price_from_sqrt_price_x96 (2 ^ 159 + 1) 0 0 false
  = price_from_sqrt_price_x96 (2 ^ 159) 0 0 false.
Proof. vm_compute. reflexivity. Qed.

(** ** What a record holds *)

Lemma read_pool_sample (view : View) (pool : PoolState)
    (tick liq : Z) (price twap_price : Decimal) :
  read_pool view pool = Ok (tick, liq, price, twap_price) ->
  pool_sample view pool tick liq price twap_price.
Proof.
  unfold read_pool. intros H.
  apply bind_ok in H. destruct H as ([x tick'] & Hs0 & H).
  apply bind_ok in H. destruct H as (liq' & Hliq & H).
  apply bind_ok in H. destruct H as (price' & Hprice & H).
  apply bind_ok in H. destruct H as (twap & Htwap & H).
  apply bind_ok in H. destruct H as (twap_price' & Htp & H).
  cbn [fst snd] in *. injection H as <- <- <- <-.
  exists x, twap. repeat split; assumption.
Qed.

Open Scope string_scope.

(** X16: every record an iteration builds holds, under its 17 keys, the
    values of that one iteration: the timestamp, the pool descriptors, the
    spot prices of the square-root prices read from slot0, under twapA_tick
    and twapB_tick the prices (not the ticks) of the 300 s TWAP ticks, the
    three deviations of those prices, and the liquidities and ticks as
    read. *)
Theorem record_fields (view_a view_b : View) (w : World) (r : Row) :
  sample_row view_a view_b w = Ok r ->
  exists tick_a liq_a price_a twap_price_a tick_b liq_b price_b twap_price_b c da db,
    pool_sample view_a (state_a w) tick_a liq_a price_a twap_price_a /\
    pool_sample view_b (state_b w) tick_b liq_b price_b twap_price_b /\
    cross_deviation price_a price_b = Ok c /\
    twap_deviation price_a twap_price_a = Ok da /\
    twap_deviation price_b twap_price_b = Ok db /\
    lookup "timestamp" r = Some (CStr (time_stamp w)) /\
    lookup "poolA_address" r = Some (CStr (pool_address view_a)) /\
    lookup "poolB_address" r = Some (CStr (pool_address view_b)) /\
    lookup "symbol_pair" r
      = Some (CStr (symbol (token0 view_a) ++ "/" ++ symbol (token1 view_a))) /\
    lookup "fee_a" r = Some (CTrueDiv (fee view_a) 100) /\
    lookup "fee_b" r = Some (CTrueDiv (fee view_b) 100) /\
    lookup "priceA_token1_per_token0" r = Some (CDecStr price_a) /\
    lookup "priceB_token1_per_token0" r = Some (CDecStr price_b) /\
    lookup "twapA_tick" r = Some (CDecStr twap_price_a) /\
    lookup "twapB_tick" r = Some (CDecStr twap_price_b) /\
    lookup "twap_deviation_a" r = Some (CFloat da) /\
    lookup "twap_deviation_b" r = Some (CFloat db) /\
    lookup "cross_pool_deviation" r = Some (CFloat c) /\
    lookup "liquidityA" r = Some (CInt liq_a) /\
    lookup "liquidityB" r = Some (CInt liq_b) /\
    lookup "tickA" r = Some (CInt tick_a) /\
    lookup "tickB" r = Some (CInt tick_b).
Proof.
  unfold sample_row. intros H.
  apply bind_ok in H. destruct H as ([[[tick_a liq_a] price_a] twap_a] & Ha & H).
  apply bind_ok in H. destruct H as ([[[tick_b liq_b] price_b] twap_b] & Hb & H).
  apply bind_ok in H. destruct H as (s & Hs & H).
  injection H as <-.
  unfold signals in Hs.
  apply bind_ok in Hs. destruct Hs as (c & Hc & Hs).
  apply bind_ok in Hs. destruct Hs as (da & Hda & Hs).
  apply bind_ok in Hs. destruct Hs as (db & Hdb & Hs).
  injection Hs as <-.
  exists tick_a, liq_a, price_a, twap_a, tick_b, liq_b, price_b, twap_b, c, da, db.
  split; [ apply read_pool_sample; exact Ha | ].
  split; [ apply read_pool_sample; exact Hb | ].
  repeat (split; [ first [ assumption | reflexivity ] | ]). reflexivity.
Qed.

Close Scope string_scope.

Lemma record_fields_witness :
  exists r,
    sample_row view_005 view_03 (two_tests 0) = Ok r /\
    lookup "tickB"%string r = Some (CInt 13863).
Proof.
  assert (H : exists r, sample_row view_005 view_03 (two_tests 0) = Ok r).
  { eexists. vm_compute. reflexivity. }
  destruct H as (r & Hr). exists r. split; [ exact Hr | ].
  destruct (record_fields view_005 view_03 (two_tests 0) r Hr)
    as (ta & la & pa & tpa & tb & lb & pb & tpb & c & da & db
        & _ & (x & twap & Hs0 & _) & _ & _ & _ & _ & _ & _ & _ & _ & _ & _ & _ & _ & _ & _ & _
        & _ & _ & _ & _ & Htb).
  rewrite Htb. injection Hs0 as _ <-. reflexivity.
Defined.

(** X17: whatever its outcome, the loop only appends: the records it ends
    with are the records it started with, unchanged and in place, followed by
    at most one new record per loop test, each with the 17 columns. *)
Theorem sampling_loop_append_only (fuel : nat) (env : nat -> World) (end_time : Z)
    (view_a view_b : View) :
  forall (i : nat) (rows : list Row),
  exists rs,
    rows_of (sampling_loop fuel env i end_time view_a view_b rows) = rows ++ rs /\
    (List.length rs <= fuel)%nat /\
    Forall (fun r => map fst r = COLUMNS) rs.
Proof.
  induction fuel as [ | f IH ]; intros i rows.
  - exists []. rewrite app_nil_r. repeat split; [ simpl; lia | constructor ].
  - cbn [sampling_loop]. unfold sample.
    destruct (now (env i) <? end_time).
    + destruct (sample_row view_a view_b (env i)) as [r | e] eqn:Hr.
      * destruct (IH (S i) (rows ++ [r])) as (rs & Heq & Hlen & Hall).
        exists (r :: rs). rewrite Heq, <- app_assoc.
        split; [ reflexivity | ]. split; [ simpl; lia | ].
        constructor; [ apply (sample_row_columns _ _ _ _ Hr) | exact Hall ].
      * exists []. rewrite app_nil_r. repeat split; [ simpl; lia | constructor ].
    + exists []. rewrite app_nil_r. repeat split; [ simpl; lia | constructor ].
Qed.
